(** * PeterNorvigAlgorithm: constraint propagation and search for Sudoku

    A shallow embedding of [Code/PeterNorvigAlgorithm.py] and the proofs of
    the properties its specification states.

    Conventions of the embedding.
    - A Python [str] is a [string]; [chars] lists its characters, a digit or
      a row letter is an [ascii].
    - The dict [values] is a [gmap string string] from squares to candidate
      strings.  At run time it always carries the 81 squares as keys
      ([parseGrid] builds it so and no key is added or removed), so
      [values[square]] is read with the total lookup [!!!]; theorems about
      arbitrary maps assume that the squares are keys.  Such a dict is not
      empty, hence true in a Python condition.
    - The methods update [values] in place and return it, or return [False].
      Here they take the map and return an [outcome]: the updated map, Python's
      [False], an exception, or exhaustion of the recursion fuel.  After
      [False] every caller gives the map up ([parseGrid] returns, [deepSearch]
      drops the copy), so no map goes with [False].
    - [eliminate], [reviewNextDigit] and [deepSearch] call themselves and each
      other; they take a [fuel] that bounds the depth of the calls, and the
      theorems say how much of it is enough.
    - Python fixes neither the order in which a [set] is traversed nor (in
      Python 2) the order of [dict.items()]; both orders are parameters,
      [set_iter] and [dict_items].
    - [reviewUnit] and [deepSearch] call [self.assign], which this class does
      not define; it is the parameter [assign] of the engine.  [Assign] below
      is the operation of that name in the specification. *)

From Stdlib Require Import String Ascii List Sorted.
From stdpp Require Import gmap strings list sorting fin_maps.

Open Scope string_scope.
Open Scope list_scope.
Open Scope nat_scope.

(** ** Python strings *)

Definition chars (s : string) : list ascii := list_ascii_of_string s.

(** The string made of one character. *)
Definition str1 (c : ascii) : string := String c "".

(** [s.replace(c, '')] for a one-character [c]. *)
Definition str_remove (c : ascii) (s : string) : string :=
  string_of_list_ascii (filter (λ x, x ≠ c) (chars s)).

(** ** The board: [__init__] *)

(** [[row + col for row in Rows for col in Cols]] *)
Definition crossProduct (Rows Cols : string) : list string :=
  row ← chars Rows; col ← chars Cols; [String row (str1 col)].

Definition digits : string := "123456789".
Definition rows : string := "ABCDEFGHI".
Definition cols : string := digits.

Definition squares : list string := crossProduct rows cols.

Definition unitlist : list (list string) :=
  (col ← chars cols; [crossProduct rows (str1 col)]) ++
  (row ← chars rows; [crossProduct (str1 row) cols]) ++
  (rs ← ["ABC"; "DEF"; "GHI"]; cs ← ["123"; "456"; "789"]; [crossProduct rs cs]).

(** [self.units[square]] *)
Definition units (square : string) : list (list string) :=
  filter (λ unit, square ∈ unit) unitlist.

(** [self.peers[square]] *)
Definition peers (square : string) : gset string :=
  list_to_set (mjoin (units square)) ∖ {[square]}.

(** ** Results of the methods *)

Abbreviation Values := (gmap string string).

Inductive exn : Set := AssertionError | ValueError | TypeError.

Inductive outcome : Type :=
  | Dict (values : Values)   (* the dict [values] *)
  | PyFalse                  (* [False] *)
  | Raised (e : exn)         (* an exception left the method *)
  | OutOfFuel.               (* the fuel of the model ran out *)

(** Go on with the map when there is one; [False], an exception and the lack
    of fuel end the computation. *)
Definition bind (o : outcome) (k : Values → outcome) : outcome :=
  match o with
  | Dict values => k values
  | _ => o
  end.

(** [all(f(values, x) for x in l)], where [f] updates [values] in place:
    stops at the first result that is not true. *)
Fixpoint all_ {A} (f : Values → A → outcome) (values : Values) (l : list A) : outcome :=
  match l with
  | [] => Dict values
  | x :: l => bind (f values x) (λ values, all_ f values l)
  end.

(** [min] of a non-empty sequence; [None] stands for the [ValueError] on an
    empty one.  The first of the smallest elements is returned. *)
Definition py_min {A} (lt : A → A → bool) (l : list A) : option A :=
  match l with
  | [] => None
  | x :: l => Some (fold_left (λ m y, if lt y m then y else m) l x)
  end.

(** Python's order on the tuples [(len(values[square]), square)]. *)
Definition tuple_ltb (x y : nat * string) : bool :=
  (x.1 <? y.1)%nat || ((x.1 =? y.1)%nat && String.ltb x.2 y.2).

(** ** The engine *)

Section Engine.

Variable set_iter : gset string → list string.
Variable dict_items : gmap string ascii → list (string * ascii).
Variable assign : Values → string → ascii → outcome.

(** The places left for [digit] in [unit]: the list [dplaces].  (In Python 2
    the comprehension rebinds [square]; [reviewUnit] does not read it
    afterwards.) *)
Definition dplaces (values : Values) (digit : ascii) (unit : list string) : list string :=
  filter (λ square, digit ∈ chars (values !!! square)) unit.

(** The body of the loop of [reviewUnit]. *)
Definition reviewUnit_step (digit : ascii) (values : Values) (unit : list string) : outcome :=
  match dplaces values digit unit with
  | [] => PyFalse
  | [place] => assign values place digit
  | _ => Dict values
  end.

Definition reviewUnit (values : Values) (square : string) (digit : ascii) : outcome :=
  all_ (reviewUnit_step digit) values (units square).

Fixpoint eliminate (fuel : nat) (values : Values) (square : string) (digit : ascii)
    : outcome :=
  match fuel with
  | 0 => OutOfFuel
  | S fuel =>
      if decide (digit ∈ chars (values !!! square)) then
        let values := <[square := str_remove digit (values !!! square)]> values in
        bind (reviewNextDigit fuel values square)
             (λ values, reviewUnit values square digit)
      else Dict values
  end
with reviewNextDigit (fuel : nat) (values : Values) (square : string) : outcome :=
  match fuel with
  | 0 => OutOfFuel
  | S fuel =>
      match chars (values !!! square) with
      | [] => PyFalse
      | [nextDigit] =>
          all_ (λ values nextSquare, eliminate fuel values nextSquare nextDigit)
               values (set_iter (peers square))
      | _ => Dict values
      end
  end.

Definition assignPosibleValues (fuel : nat) (values : Values) (square : string)
    (digit : ascii) : outcome :=
  let other_values := str_remove digit (values !!! square) in
  all_ (λ values nextDigit, eliminate fuel values square nextDigit)
       values (chars other_values).

(** The characters of a grid that count. *)
Definition grid_chars (grid : string) : list ascii :=
  filter (λ eachChar, eachChar ∈ chars digits ∨ eachChar ∈ chars "0.") (chars grid).

(** [None] when the assertion fails. *)
Definition getGridValues (grid : string) : option (gmap string ascii) :=
  if decide (length (grid_chars grid) = 81)
  then Some (list_to_map (zip squares (grid_chars grid)))
  else None.

(** The map in which every square can be any digit. *)
Definition all_digits : Values :=
  list_to_map ((λ square, (square, digits)) <$> squares).

Definition parseGrid_step (fuel : nat) (values : Values) (item : string * ascii) : outcome :=
  if decide (item.2 ∈ chars digits)
  then assignPosibleValues fuel values item.1 item.2
  else Dict values.

Definition parseGrid (fuel : nat) (grid : string) : outcome :=
  match getGridValues grid with
  | None => Raised AssertionError
  | Some given => all_ (parseGrid_step fuel) all_digits (dict_items given)
  end.

(** [validValues(f(x) for x in seq)]: the generator is run as far as its
    first true element only. *)
Fixpoint validValues {A} (f : A → outcome) (seq : list A) : outcome :=
  match seq with
  | [] => PyFalse
  | x :: seq =>
      match f x with
      | PyFalse => validValues f seq
      | element => element
      end
  end.

(** The squares with more than one candidate, each with how many. *)
Definition unfilled (values : Values) : list (nat * string) :=
  (λ square, (length (chars (values !!! square)), square)) <$>
  filter (λ square, 1 < length (chars (values !!! square))) squares.

Fixpoint deepSearch (fuel : nat) (values : outcome) : outcome :=
  match values with
  | Dict values =>
      match fuel with
      | 0 => OutOfFuel
      | S fuel =>
          if decide (Forall (λ square, length (chars (values !!! square)) = 1) squares)
          then Dict values
          else
            match py_min tuple_ltb (unfilled values) with
            | None => Raised ValueError
            | Some (n, square) =>
                validValues (λ digit, deepSearch fuel (assign values square digit))
                            (chars (values !!! square))
            end
      end
  | failed => failed
  end.

Definition solve (fuel : nat) (grid : string) : outcome :=
  deepSearch fuel (parseGrid fuel grid).

End Engine.

(** Modelled from the spec: the method [self.assign], which [reviewUnit] and
    [deepSearch] call and which is not defined in the class.  The spec knows
    one operation Assign(map, cell, digit), "force cell to digit by
    eliminating every other candidate digit of cell via Eliminate, one at a
    time", which in turn is what [assignPosibleValues] does; [Assign] is
    that operation, [n] bounding how deep Assign and Eliminate call each
    other. *)
Fixpoint Assign (set_iter : gset string → list string) (n : nat)
    : Values → string → ascii → outcome :=
  match n with
  | 0 => λ _ _ _, OutOfFuel
  | S n => assignPosibleValues set_iter (Assign set_iter n) (S n)
  end.

(** ** Reporting: [getMatrix] and [timeSolve] *)

(** What [timeSolve] leaves: [self.solution] and the flag it returns (the
    running time is not modelled), or the exception that ended it. *)
Inductive report (matrix : Type) : Type :=
  | Reported (solution : matrix) (solved : bool)
  | Aborted (e : exn)
  | NoFuel.
Arguments Reported {matrix} solution solved.
Arguments Aborted {matrix} e.
Arguments NoFuel {matrix}.

Section Driver.

Variable set_iter : gset string → list string.
Variable dict_items : gmap string ascii → list (string * ascii).
Variable assign : Values → string → ascii → outcome.

(** [convertStringToMatrix] and [solved] are inherited from [Algorithm],
    which is not part of the sources. *)
Variable matrix : Type.
Variable convertStringToMatrix : list string → matrix.
Variable solved : option Values → bool.

(** [sorted(dict.items(values))]: the items by ascending key. *)
Definition sorted_items (values : Values) : list (string * string) :=
  merge_sort (λ x y : string * string, String.le x.1 y.1) (map_to_list values).

(** [dict.items(False)] raises [TypeError]. *)
Definition getMatrix (values : option Values) : exn + matrix :=
  match values with
  | Some values => inr (convertStringToMatrix ((sorted_items values).*2))
  | None => inl TypeError
  end.

(** The clock is left out. *)
Definition timeSolve (fuel : nat) (grid : string) : report matrix :=
  match solve set_iter dict_items assign fuel grid with
  | Raised e => Aborted e
  | OutOfFuel => NoFuel
  | o =>
      let values := match o with Dict values => Some values | _ => None end in
      match getMatrix values with
      | inl e => Aborted e
      | inr solution => Reported solution (solved values)
      end
  end.

End Driver.

(** [shuffled]: [random.shuffle] permutes the list as the generator decides;
    [shuffle] stands for it.  None of the methods above takes it. *)
Definition shuffled {A} (shuffle : list A → list A) (seq : list A) : list A :=
  shuffle seq.

(** ** Vocabulary of the statements *)

(** The candidates of a square. *)
Definition cand (values : Values) (square : string) : list ascii :=
  chars (values !!! square).

(** Every square is a key. *)
Definition has_squares (values : Values) : Prop :=
  Forall (λ square, is_Some (values !! square)) squares.

(** A candidate map: the keys are the squares, and the candidates of a square
    are digits in ascending order, none twice. *)
Definition CandidateMap (values : Values) : Prop :=
  dom values = list_to_set squares ∧
  Forall (λ square, cand values square `sublist_of` chars digits) squares.

(** A determined square is good when its digit is no candidate of any of its
    peers. *)
Definition good (values : Values) (square : string) : Prop :=
  ∀ d, cand values square = [d] → ∀ p, p ∈ peers square → d ∉ cand values p.

(** [values'] comes from [values] by eliminations that emptied no square,
    left the good squares good, and left a place in every unit for every
    digit that had one. *)
Record shrinks (values values' : Values) : Prop := Shrinks {
  shrinks_dom : dom values' = dom values;
  shrinks_sub : ∀ square, cand values' square `sublist_of` cand values square;
  shrinks_nonempty : ∀ square, cand values square ≠ [] → cand values' square ≠ [];
  shrinks_good : ∀ square, good values square → good values' square;
  shrinks_places : ∀ digit unit,
    unit ∈ unitlist → dplaces values digit unit ≠ [] → dplaces values' digit unit ≠ []
}.

(** What the proofs ask of [self.assign]: when it returns the map, it has
    only eliminated, and nothing but [digit] is left in [square]. *)
Definition assign_ok (assign : Values → string → ascii → outcome) : Prop :=
  ∀ values square digit values',
    assign values square digit = Dict values' →
    shrinks values values' ∧ ∀ c, c ∈ cand values' square → c = digit.

(** The run of a loop [all_ f] whose steps all return the map. *)
Inductive chain {A} (f : Values → A → outcome) : Values → list A → Values → Prop :=
  | chain_nil values : chain f values [] values
  | chain_cons values x values1 l values' :
      f values x = Dict values1 →
      chain f values1 l values' →
      chain f values (x :: l) values'.

(** A solved map: every square holds one digit, and the squares of every
    unit hold the nine digits, each once. *)
Definition solved_map (values : Values) : Prop :=
  dom values = list_to_set squares ∧
  (∀ square, square ∈ squares →
     ∃ d, d ∈ chars digits ∧ values !!! square = str1 d) ∧
  (∀ unit, unit ∈ unitlist →
     (λ square, values !!! square) <$> unit ≡ₚ str1 <$> chars digits).

(** The givens of a grid: the squares that carry a digit, with the digit. *)
Definition givens (grid : string) : list (string * ascii) :=
  filter (λ item, item.2 ∈ chars digits) (zip squares (grid_chars grid)).

(** The map holds every given. *)
Definition respects (grid : string) (values : Values) : Prop :=
  ∀ s d, (s, d) ∈ givens grid → values !!! s = str1 d.

(** The digits of the squares in the order of [squares]: what [getMatrix]
    hands over. *)
Definition digit_sequence (values : Values) : list string :=
  (λ square, values !!! square) <$> squares.

(** The order in which [min] compares the tuples [(len(values[s]), s)]:
    fewer candidates first, and among equals the smaller name. *)
Definition tuple_le (x y : nat * string) : Prop :=
  x.1 < y.1 ∨ (x.1 = y.1 ∧ String.le x.2 y.2).

(** How many candidates the map holds, all squares together: it bounds the
    number of eliminations still possible. *)
Definition weight (values : Values) : nat :=
  map_fold (λ _ x n, length (chars x) + n) 0 values.

(** The method came to an end within the fuel, and without an exception. *)
Definition settled (o : outcome) : Prop :=
  match o with
  | Dict _ | PyFalse => True
  | Raised _ | OutOfFuel => False
  end.

(** The method raised no exception. *)
Definition no_exception (o : outcome) : Prop := ∀ e, o ≠ Raised e.

(** The solved map [sol] lies within the candidates of [values]. *)
Definition fits (sol values : Values) : Prop :=
  ∀ s d, sol !!! s = str1 d → d ∈ cand values s.

(** [sol] solves the grid. *)
Definition solution (grid : string) (sol : Values) : Prop :=
  solved_map sol ∧ respects grid sol.

(** What completeness asks of [self.assign]: assigning the digit of a
    solution never fails and keeps the solution within the candidates. *)
Definition assign_complete (sol : Values)
    (assign : Values → string → ascii → outcome) : Prop :=
  ∀ values square digit,
    CandidateMap values → fits sol values → sol !!! square = str1 digit →
    assign values square digit ≠ PyFalse ∧
    ∀ values', assign values square digit = Dict values' → fits sol values'.

(** Digits in ascending order. *)
Definition digit_lt (a b : ascii) : Prop := nat_of_ascii a < nat_of_ascii b.

(** ** Grids used as examples *)

(** The map that holds the digits of [filled], one per square. *)
Definition grid_values (filled : string) : Values :=
  list_to_map (zip squares (str1 <$> chars filled)).

Definition easy_grid : string :=
  "003020600900305001001806400008102900700000008006708200002609500800203009005010300".

Definition easy_solution : Values :=
  grid_values
    "483921657967345821251876493548132976729564138136798245372689514814253769695417382".

(** A grid with the digit 1 twice in the first row. *)
Definition twice_grid : string :=
  "11...............................................................................".

(** The blank grid, followed by two spaces. *)
Definition long_grid : string :=
  ".................................................................................  ".

(** The blank board with the digit 5 struck from the squares of [l]. *)
Definition without_five (l : list string) : Values :=
  foldr (λ square values, <[square := "12346789"]> values) all_digits l.

(** In row A the digit 5 is left in A1 only, and in A1 and A2 only. *)
Definition no_place_map : Values := without_five (drop 1 (crossProduct "A" cols)).

Definition one_place_map : Values := without_five (drop 2 (crossProduct "A" cols)).

(** The solution of [easy_grid] with A1 left open between 3 and 4. *)
Definition open_map : Values := <["A1" := "34"]> easy_solution.

(** ** The batch: [solveSudoku] *)

(** What the list comprehension of [solveSudoku] and the [zip] after it
    leave: the tuple [results] of the flags, one per grid (the tuple [times]
    is not modelled), or the exception that ended the method. *)
Inductive batch : Type :=
  | Results (results : list bool)
  | BatchAborted (e : exn)
  | BatchNoFuel.

Section Batch.

Variable set_iter : gset string → list string.
Variable dict_items : gmap string ascii → list (string * ascii).
Variable assign : Values → string → ascii → outcome.
Variable matrix : Type.
Variable convertStringToMatrix : list string → matrix.
Variable solved : option Values → bool.

(** [[timeSolve(grid) for grid in self.grids]]: the grids in turn; an
    exception of [timeSolve] ends the comprehension. *)
Fixpoint timeSolve_each (fuel : nat) (grids : list string) : batch :=
  match grids with
  | [] => Results []
  | grid :: grids =>
      match timeSolve set_iter dict_items assign matrix convertStringToMatrix
              solved fuel grid with
      | Reported _ flag =>
          match timeSolve_each fuel grids with
          | Results flags => Results (flag :: flags)
          | ended => ended
          end
      | Aborted e => BatchAborted e
      | NoFuel => BatchNoFuel
      end
  end.

(** [times, results = zip] of the unpacked list: with no grid [zip] gives
    nothing to unpack into the two names, a [ValueError].  [self.grids] is set by
    [Algorithm], which is not part of the sources; it is the argument
    [grids]. *)
Definition solveSudoku (fuel : nat) (grids : list string) : batch :=
  match timeSolve_each fuel grids with
  | Results [] => BatchAborted ValueError
  | ended => ended
  end.

End Batch.

(** The grid that spells the digits of a map from A1 to I9. *)
Definition grid_of (values : Values) : string :=
  string_of_list_ascii (mjoin (chars <$> digit_sequence values)).


(** * Proofs *)

Implicit Types (values v : Values) (square s p q : string) (digit d c : ascii).

(** Closed decidable facts about the board are settled by evaluation. *)
Ltac by_evaluation := apply (bool_decide_unpack _); by vm_compute.

(** ** Strings *)

Lemma chars_of_list (l : list ascii) : chars (string_of_list_ascii l) = l.
Proof. apply list_ascii_of_string_of_list_ascii. Qed.

Lemma chars_inj s1 s2 : chars s1 = chars s2 → s1 = s2.
Proof.
  intros H. rewrite <- (string_of_list_ascii_of_string s1),
    <- (string_of_list_ascii_of_string s2). unfold chars in H. by rewrite H.
Qed.

Lemma chars_str_remove c s : chars (str_remove c s) = filter (λ x, x ≠ c) (chars s).
Proof. apply chars_of_list. Qed.

Lemma chars_singleton s d : chars s = [d] → s = str1 d.
Proof. intros H. by apply chars_inj. Qed.

(** ** Lookups after an update *)

Lemma cand_insert_eq v s x : cand (<[s:=x]> v) s = chars x.
Proof. unfold cand. by rewrite lookup_total_insert_eq. Qed.

Lemma cand_insert_ne v s p x : s ≠ p → cand (<[s:=x]> v) p = cand v p.
Proof. intros. unfold cand. by rewrite lookup_total_insert_ne. Qed.

Lemma cand_nonempty_dom v s : cand v s ≠ [] → s ∈ dom v.
Proof.
  unfold cand. rewrite lookup_total_alt. intros H.
  apply elem_of_dom. destruct (v !! s); [eauto | done].
Qed.

(** ** Loops *)

Lemma all_Dict {A} (f : Values → A → outcome) v l v' :
  all_ f v l = Dict v' ↔ chain f v l v'.
Proof.
  split.
  - revert v. induction l as [|x l IH]; intros v; simpl.
    + intros [= ->]. constructor.
    + destruct (f v x) as [v1| | |] eqn:E; simpl; try done.
      intros H. econstructor; eauto.
  - induction 1 as [|v x v1 l v' E _ IH]; simpl; [done|]. by rewrite E.
Qed.

Lemma all_stops {A} (f : Values → A → outcome) v l o :
  (∀ v', o ≠ Dict v') →
  all_ f v l = o ↔
  ∃ pre x post vk, l = pre ++ x :: post ∧ chain f v pre vk ∧ f vk x = o.
Proof.
  intros Ho. split.
  - revert v. induction l as [|x l IH]; intros v; simpl.
    + intros <-. by destruct (Ho v).
    + destruct (f v x) as [v1| | |] eqn:E; simpl.
      * intros (pre & y & post & vk & -> & Hc & Hy)%IH.
        exists (x :: pre), y, post, vk. split_and!; [done| |done].
        econstructor; eauto.
      * intros <-. exists [], x, l, v. split_and!; [done|constructor|done].
      * intros <-. exists [], x, l, v. split_and!; [done|constructor|done].
      * intros <-. exists [], x, l, v. split_and!; [done|constructor|done].
  - intros (pre & x & post & vk & -> & Hc & Hx).
    induction Hc as [|v y v1 l v' E _ IH]; simpl.
    + rewrite Hx. destruct o as [vo| | |]; simpl; try done. by destruct (Ho vo).
    + rewrite E. simpl. by apply IH.
Qed.

Lemma chain_app {A} (f : Values → A → outcome) v l1 l2 v' :
  chain f v (l1 ++ l2) v' ↔ ∃ v1, chain f v l1 v1 ∧ chain f v1 l2 v'.
Proof.
  split.
  - revert v. induction l1 as [|x l1 IH]; intros v; simpl.
    + intros H. exists v. split; [constructor|done].
    + inversion 1 as [|? ? v1 ? ? E Hc]; subst.
      destruct (IH _ Hc) as (v2 & ? & ?). exists v2. split; [|done].
      econstructor; eauto.
  - intros (v1 & H1 & H2). induction H1; simpl; [done|].
    econstructor; eauto.
Qed.

(** A relation that every step respects holds along the whole run. *)
Lemma chain_preorder {A} (R : relation Values) `{!PreOrder R}
    (f : Values → A → outcome) v l v' :
  (∀ v1 x v2, x ∈ l → f v1 x = Dict v2 → R v1 v2) →
  chain f v l v' → R v v'.
Proof.
  intros Hf Hc. induction Hc as [|v x v1 l v' E _ IH]; [done|].
  trans v1.
  - eapply Hf; [left|done].
  - apply IH. intros ????. apply Hf. by right.
Qed.

(** What a step establishes for its own element, and later steps keep, holds
    for every element at the end. *)
Lemma chain_each {A} (R : relation Values) `{!PreOrder R} (P : Values → A → Prop)
    (f : Values → A → outcome) v l v' :
  (∀ v1 x v2, x ∈ l → f v1 x = Dict v2 → R v1 v2 ∧ P v2 x) →
  (∀ v1 v2 x, R v1 v2 → P v1 x → P v2 x) →
  chain f v l v' → ∀ x, x ∈ l → P v' x.
Proof.
  intros Hf Hkeep Hc. induction Hc as [|v x v1 l v' E Hc IH]; intros y Hy.
  - by apply elem_of_nil in Hy.
  - apply elem_of_cons in Hy as [->|Hy].
    + apply (Hkeep v1); [|eapply Hf; [left|done]].
      eapply chain_preorder; [done| |done].
      intros ?????. eapply Hf; [by right|done].
    + apply IH; [|done]. intros ????. apply Hf. by right.
Qed.

(** ** Eliminations only shrink *)

Lemma dplaces_nonempty v d unit :
  dplaces v d unit ≠ [] ↔ ∃ q, q ∈ unit ∧ d ∈ cand v q.
Proof.
  unfold dplaces. split.
  - destruct (filter _ unit) as [|q l] eqn:E; [done|]. intros _.
    assert (q ∈ filter (λ s, d ∈ chars (v !!! s)) unit) as Hq by (rewrite E; left).
    apply list_elem_of_filter in Hq as [? ?]. by exists q.
  - intros (q & Hq & Hd) E.
    assert (q ∈ filter (λ s, d ∈ chars (v !!! s)) unit) as Hin
      by by apply list_elem_of_filter.
    rewrite E in Hin. by apply elem_of_nil in Hin.
Qed.

Global Instance shrinks_preorder : PreOrder shrinks.
Proof.
  split.
  - intros v. by split.
  - intros v1 v2 v3 H12 H23. split.
    + rewrite (shrinks_dom _ _ H23). apply H12.
    + intros s. trans (cand v2 s); [apply H23|apply H12].
    + intros s Hs. by apply H23, H12.
    + intros s Hs. by apply H23, H12.
    + intros d unit Hu Hd. by apply H23, H12.
Qed.

Lemma shrinks_not_elem v v' s d : shrinks v v' → d ∉ cand v s → d ∉ cand v' s.
Proof.
  intros Hsh Hd Hin. apply Hd. eapply elem_of_sublist; [done|]. apply Hsh.
Qed.

Lemma sublist_singleton {A} (l : list A) x : l `sublist_of` [x] → l ≠ [] → l = [x].
Proof.
  intros H Hne. apply sublist_cons_r in H as [H|(l' & -> & H)].
  - by apply sublist_nil_r in H.
  - apply sublist_nil_r in H. by subst.
Qed.

Lemma shrinks_singleton v v' s d : shrinks v v' → cand v s = [d] → cand v' s = [d].
Proof.
  intros Hsh Hd. apply sublist_singleton.
  - rewrite <- Hd. apply Hsh.
  - apply Hsh. by rewrite Hd.
Qed.

(** Removing candidates of [s] leaves the other squares good. *)
Lemma good_insert v s x q :
  q ≠ s → chars x `sublist_of` cand v s → good v q → good (<[s:=x]> v) q.
Proof.
  intros Hc Hx Hg d Hd p Hp. rewrite cand_insert_ne in Hd by done.
  destruct (decide (p = s)) as [->|Hps].
  - rewrite cand_insert_eq. intros Hin. eapply Hg; eauto.
    eapply elem_of_sublist; eauto.
  - rewrite cand_insert_ne by done. eauto.
Qed.

Section Shrinking.

Variable set_iter : gset string → list string.
Variable assign : Values → string → ascii → outcome.
Hypothesis set_iter_perm : ∀ X, set_iter X ≡ₚ elements X.
Hypothesis assign_shrinks : assign_ok assign.

Lemma reviewUnit_step_shrinks d v unit v' :
  reviewUnit_step assign d v unit = Dict v' →
  shrinks v v' ∧ dplaces v d unit ≠ [].
Proof.
  unfold reviewUnit_step.
  destruct (dplaces v d unit) as [|place [|]]; [done| |by intros [= ->]].
  intros H. by apply assign_shrinks in H as [? _].
Qed.

Lemma reviewUnit_shrinks v s d v' :
  reviewUnit assign v s d = Dict v' →
  shrinks v v' ∧ ∀ unit, unit ∈ units s → dplaces v' d unit ≠ [].
Proof.
  unfold reviewUnit. rewrite all_Dict. intros Hc. split.
  - revert Hc. apply chain_preorder; [apply _|].
    intros v1 unit v2 _ H. by apply reviewUnit_step_shrinks in H as [? _].
  - intros unit Hu.
    eapply (chain_each shrinks
      (λ v unit, unit ∈ unitlist → dplaces v d unit ≠ [])); [| |exact Hc|done|].
    + intros v1 x v2 _ H. apply reviewUnit_step_shrinks in H as [Hsh Hx].
      split; [done|]. intros Hin. by apply Hsh.
    + intros v1 v2 x H12 H1 Hin. by apply H12, H1.
    + by apply list_elem_of_filter in Hu as [_ ?].
Qed.

Lemma eliminate_reviewNextDigit_shrink fuel :
  (∀ v s d v', eliminate set_iter assign fuel v s d = Dict v' →
     shrinks v v' ∧ d ∉ cand v' s) ∧
  (∀ v s v', reviewNextDigit set_iter assign fuel v s = Dict v' →
     dom v' = dom v ∧
     (∀ p, cand v' p `sublist_of` cand v p) ∧
     (∀ p, cand v p ≠ [] → cand v' p ≠ []) ∧
     (∀ d unit, unit ∈ unitlist → dplaces v d unit ≠ [] → dplaces v' d unit ≠ []) ∧
     cand v s ≠ [] ∧ good v' s ∧
     (∀ q, q ≠ s → good v q → good v' q)).
Proof.
  induction fuel as [|fuel [IHe IHr]]; [done|]. split.
  - intros v s d v'. simpl. fold (cand v s). case_decide as Hd; cycle 1.
    { intros [= ->]. done. }
    set (v1 := <[s:=str_remove d (v !!! s)]> v).
    destruct (reviewNextDigit set_iter assign fuel v1 s) as [v2| | |] eqn:E2; try done.
    simpl. intros [Hu Hplaces]%reviewUnit_shrinks.
    apply IHr in E2 as (Hdom & Hsub & Hne & Hpl & Hs & Hgs & Hg).
    assert (Hrem : chars (str_remove d (v !!! s)) `sublist_of` cand v s).
    { rewrite chars_str_remove. apply sublist_filter. }
    assert (Hsub1 : ∀ p, cand v1 p `sublist_of` cand v p).
    { intros p. unfold v1. destruct (decide (s = p)) as [->|].
      - by rewrite cand_insert_eq.
      - by rewrite cand_insert_ne. }
    split.
    + trans v2; [|done]. split.
      * rewrite Hdom. unfold v1. apply dom_insert_lookup_L.
        apply elem_of_dom, cand_nonempty_dom. intros Hnil. rewrite Hnil in Hd.
        by apply elem_of_nil in Hd.
      * intros p. by trans (cand v1 p).
      * intros p Hp. apply Hne. destruct (decide (s = p)) as [->|]; [done|].
        unfold v1. by rewrite cand_insert_ne.
      * intros q Hq. destruct (decide (q = s)) as [->|]; [done|].
        apply Hg; [done|]. by apply good_insert.
      * intros d0 unit Hunit (q & Hq & Hd0)%dplaces_nonempty.
        destruct (decide (q = s ∧ d0 = d)) as [[-> ->]|Hother].
        -- apply dplaces_nonempty.
           assert (dplaces v' d unit ≠ []) as (q' & ? & ?)%dplaces_nonempty.
           { apply Hplaces. unfold units. by apply list_elem_of_filter. }
           exists q'. split; [done|]. eapply elem_of_sublist; [done|]. apply Hu.
        -- apply Hpl; [done|]. apply dplaces_nonempty. exists q. split; [done|].
           unfold v1. destruct (decide (s = q)) as [->|].
           ++ rewrite cand_insert_eq, chars_str_remove.
              apply list_elem_of_filter. split; [|done].
              intros ->. by apply Hother.
           ++ by rewrite cand_insert_ne.
    + intros Hin.
      assert (d ∈ cand v1 s) as Hin1.
      { eapply elem_of_sublist; [|apply Hsub]. eapply elem_of_sublist; [done|].
        apply Hu. }
      unfold v1 in Hin1. rewrite cand_insert_eq, chars_str_remove in Hin1.
      by apply list_elem_of_filter in Hin1 as [? _].
  - intros v s v'. simpl. fold (cand v s).
    destruct (cand v s) as [|d2 [|]] eqn:Hs; [done| |].
    + rewrite all_Dict. intros Hc.
      assert (Hsh : shrinks v v').
      { revert Hc. apply chain_preorder; [apply _|].
        intros v1 p v2 _ H. by apply IHe in H as [? _]. }
      pose proof (shrinks_singleton _ _ _ _ Hsh Hs) as Hs'.
      split_and!; [apply Hsh..|done| |intros q _; apply Hsh].
      intros d' Hd' p Hp. rewrite Hs' in Hd'. injection Hd' as <-.
      eapply (chain_each shrinks (λ v p, d2 ∉ cand v p)); [| |exact Hc|].
      * intros v1 x v2 _ H. by apply IHe in H.
      * intros v1 v2 x H12 H1. by eapply shrinks_not_elem.
      * rewrite set_iter_perm. by apply elem_of_elements.
    + intros [= ->]. split_and!; [done..| |done].
      intros d'. by rewrite Hs.
Qed.

Lemma eliminate_shrinks fuel v s d v' :
  eliminate set_iter assign fuel v s d = Dict v' → shrinks v v' ∧ d ∉ cand v' s.
Proof. apply eliminate_reviewNextDigit_shrink. Qed.

Lemma assignPosibleValues_shrinks fuel :
  assign_ok (assignPosibleValues set_iter assign fuel).
Proof.
  intros v s d v'. unfold assignPosibleValues. rewrite all_Dict. intros Hc.
  assert (Hsh : shrinks v v').
  { revert Hc. apply chain_preorder; [apply _|].
    intros v1 x v2 _ H. by apply eliminate_shrinks in H as [? _]. }
  split; [done|].
  assert (Hall : ∀ x, x ∈ chars (str_remove d (v !!! s)) → x ∉ cand v' s).
  { eapply (chain_each shrinks (λ v c, c ∉ cand v s)); [| |exact Hc].
    - intros v1 x v2 _ H. by apply eliminate_shrinks in H.
    - intros v1 v2 x H12 H1. by eapply shrinks_not_elem. }
  intros c Hc'. destruct (decide (c = d)) as [|Hne]; [done|].
  destruct (Hall c); [|done].
  rewrite chars_str_remove. apply list_elem_of_filter. split; [done|].
  eapply elem_of_sublist; [done|]. apply Hsh.
Qed.

End Shrinking.

Lemma Assign_shrinks set_iter n :
  (∀ X, set_iter X ≡ₚ elements X) → assign_ok (Assign set_iter n).
Proof.
  intros Hperm. induction n as [|n IH]; [done|].
  simpl. by apply assignPosibleValues_shrinks.
Qed.

(** ** The board *)

Lemma squares_NoDup : NoDup squares.
Proof. by_evaluation. Qed.

Lemma unitlist_shape :
  Forall (λ unit, length unit = 9 ∧ NoDup unit ∧ Forall (λ s, s ∈ squares) unit) unitlist.
Proof. by_evaluation. Qed.

Lemma unit_peers unit s p : unit ∈ unitlist → s ∈ unit → p ∈ unit → s ≠ p → p ∈ peers s.
Proof.
  intros Hu Hs Hp Hne. unfold peers. apply elem_of_difference. split.
  - apply elem_of_list_to_set, list_elem_of_join. exists unit. split; [done|].
    unfold units. by apply list_elem_of_filter.
  - by intros ->%elem_of_singleton.
Qed.

(** ** The map of [parseGrid] before the givens *)

Lemma all_digits_dom : dom all_digits = list_to_set squares.
Proof.
  unfold all_digits. by rewrite dom_list_to_map_L, <- list_fmap_compose, list_fmap_id.
Qed.

Lemma all_digits_lookup s : s ∈ squares → all_digits !!! s = digits.
Proof.
  intros Hs. apply lookup_total_correct, elem_of_list_to_map_1.
  - rewrite <- list_fmap_compose, list_fmap_id. apply squares_NoDup.
  - apply list_elem_of_fmap. by exists s.
Qed.

Lemma all_digits_cand s : cand all_digits s = chars digits ∨ cand all_digits s = [].
Proof.
  unfold cand. rewrite lookup_total_alt.
  destruct (all_digits !! s) as [x|] eqn:E; [left|by right].
  apply elem_of_list_to_map_2, list_elem_of_fmap in E as (? & [= -> ->] & _). done.
Qed.

Lemma all_digits_good q : good all_digits q.
Proof. intros d Hd. by destruct (all_digits_cand q) as [H|H]; rewrite H in Hd. Qed.

Lemma all_digits_CandidateMap : CandidateMap all_digits.
Proof.
  split; [apply all_digits_dom|]. apply Forall_forall. intros s Hs.
  unfold cand. by rewrite all_digits_lookup.
Qed.

Lemma shrinks_CandidateMap v v' : shrinks v v' → CandidateMap v → CandidateMap v'.
Proof.
  intros Hsh [Hd Hc]. split; [by rewrite (shrinks_dom _ _ Hsh)|].
  eapply Forall_impl; [exact Hc|]. intros s Hs. simpl in *.
  trans (cand v s); [apply Hsh|done].
Qed.

(** ** The search *)

Lemma validValues_Dict {A} (f : A → outcome) l v' :
  validValues f l = Dict v' ↔
  ∃ pre x post, l = pre ++ x :: post ∧ (∀ y, y ∈ pre → f y = PyFalse) ∧ f x = Dict v'.
Proof.
  split.
  - induction l as [|x l IH]; simpl; [done|].
    destruct (f x) as [v1| | |] eqn:E; try done.
    + intros [= ->]. exists [], x, l. split_and!; [done| |done].
      intros y Hy. by apply elem_of_nil in Hy.
    + intros (pre & y & post & -> & Hpre & Hy)%IH.
      exists (x :: pre), y, post. split_and!; [done| |done].
      intros z [->|Hz]%elem_of_cons; auto.
  - intros (pre & x & post & -> & Hpre & Hx).
    induction pre as [|y pre IH]; simpl.
    + by rewrite Hx.
    + rewrite (Hpre y) by left. apply IH. intros z Hz. apply Hpre. by right.
Qed.

Lemma validValues_PyFalse {A} (f : A → outcome) l :
  validValues f l = PyFalse ↔ ∀ x, x ∈ l → f x = PyFalse.
Proof.
  induction l as [|x l IH]; simpl.
  - split; [|done]. intros _ x Hx. by apply elem_of_nil in Hx.
  - destruct (f x) as [v1| | |] eqn:E.
    + split; [done|]. intros H. specialize (H x). rewrite E in H. by apply H; left.
    + rewrite IH. split.
      * intros H y [->|Hy]%elem_of_cons; auto.
      * intros H y Hy. apply H. by right.
    + split; [done|]. intros H. specialize (H x). rewrite E in H. by apply H; left.
    + split; [done|]. intros H. specialize (H x). rewrite E in H. by apply H; left.
Qed.

Section Search.

Variable assign : Values → string → ascii → outcome.
Hypothesis assign_shrinks : assign_ok assign.

Lemma deepSearch_shrinks fuel o v' :
deepSearch assign fuel o = Dict v' →
∃ v, o = Dict v ∧ shrinks v v' ∧
     Forall (λ square, length (cand v' square) = 1) squares.
Proof.
revert o v'. induction fuel as [|fuel IH]; intros [v| | |] v'; simpl; try done.
case_decide as Hall.
{ intros [= ->]. by exists v'. }
destruct (py_min tuple_ltb (unfilled v)) as [[n s]|]; [|done].
intros (pre & d & post & _ & _ & Hd)%validValues_Dict.
apply IH in Hd as (v1 & Hv1 & Hsh & Hsingle).
apply assign_shrinks in Hv1 as [Hv1 _].
exists v. split_and!; [done| |done]. by trans v1.
Qed.

End Search.

(** ** Solved maps *)

Lemma solved_map_intro v :
  shrinks all_digits v →
  Forall (λ square, length (cand v square) = 1) squares →
  solved_map v.
Proof.
  intros Hsh Hone.
  assert (Hdigit : ∀ s, s ∈ squares → ∃ d, d ∈ chars digits ∧ cand v s = [d]).
  { intros s Hs. rewrite Forall_forall in Hone. specialize (Hone s Hs).
    destruct (cand v s) as [|d [|]] eqn:E; try done. exists d. split; [|done].
    pose proof (shrinks_sub _ _ Hsh s) as Hsub.
    unfold cand at 2 in Hsub. rewrite all_digits_lookup in Hsub by done.
    eapply elem_of_sublist; [|exact Hsub]. rewrite E. left. }
  split_and!.
  - rewrite (shrinks_dom _ _ Hsh). apply all_digits_dom.
  - intros s Hs. destruct (Hdigit s Hs) as (d & Hd & Hsd). exists d.
    split; [done|]. by apply chars_singleton.
  - intros unit Hu.
    pose proof unitlist_shape as Hshape. rewrite Forall_forall in Hshape.
    destruct (Hshape unit Hu) as (Hlen & Hnd & Hsq). rewrite Forall_forall in Hsq.
    apply submseteq_length_Permutation.
    + apply NoDup_submseteq.
      * apply NoDup_fmap_2_strong; [|done]. intros s p Hs Hp Heq.
        destruct (decide (s = p)) as [|Hne]; [done|]. exfalso.
        destruct (Hdigit s (Hsq s Hs)) as (d & _ & Hsd).
        assert (good v s) as Hg.
        { apply Hsh, all_digits_good. }
        apply (Hg d Hsd p); [by eapply unit_peers|].
        unfold cand in *. rewrite <- Heq, Hsd. left.
      * intros x (s & -> & Hs)%list_elem_of_fmap.
        destruct (Hdigit s (Hsq s Hs)) as (d & Hd & Hsd).
        apply list_elem_of_fmap. exists d. split; [|done]. by apply chars_singleton.
    + by rewrite !length_fmap, Hlen.
Qed.

(** ** Parsing *)

Lemma getGridValues_Some grid given :
  getGridValues grid = Some given →
  length (grid_chars grid) = 81 ∧
  map_to_list given ≡ₚ zip squares (grid_chars grid).
Proof.
  unfold getGridValues. case_decide as Hlen; [|done]. intros [= <-].
  split; [done|]. apply map_to_list_to_map. rewrite fst_zip.
  - apply squares_NoDup.
  - rewrite Hlen. by vm_compute.
Qed.

Section Parsing.

Variable set_iter : gset string → list string.
Variable dict_items : gmap string ascii → list (string * ascii).
Variable assign : Values → string → ascii → outcome.
Hypothesis set_iter_perm : ∀ X, set_iter X ≡ₚ elements X.
Hypothesis dict_items_perm : ∀ m, dict_items m ≡ₚ map_to_list m.
Hypothesis assign_shrinks : assign_ok assign.

Lemma parseGrid_step_shrinks fuel v item v' :
parseGrid_step set_iter assign fuel v item = Dict v' →
shrinks v v' ∧ (item.2 ∈ chars digits → ∀ c, c ∈ cand v' item.1 → c = item.2).
Proof.
unfold parseGrid_step. case_decide as Hd.
- intros H. by apply assignPosibleValues_shrinks in H as [? ?].
- by intros [= ->].
Qed.

Lemma parseGrid_shrinks fuel grid v' :
parseGrid set_iter dict_items assign fuel grid = Dict v' →
shrinks all_digits v' ∧
∀ s d, (s, d) ∈ givens grid → ∀ c, c ∈ cand v' s → c = d.
Proof.
unfold parseGrid. destruct (getGridValues grid) as [given|] eqn:Hg; [|done].
apply getGridValues_Some in Hg as [_ Hg]. rewrite all_Dict. intros Hc. split.
- revert Hc. apply chain_preorder; [apply _|].
  intros v1 x v2 _ H. by apply parseGrid_step_shrinks in H as [? _].
- assert (Hall : ∀ item : string * ascii, item ∈ dict_items given →
    item.2 ∈ chars digits → ∀ c, c ∈ cand v' item.1 → c = item.2).
  { eapply (chain_each shrinks (λ v (item : string * ascii),
      item.2 ∈ chars digits → ∀ c, c ∈ cand v item.1 → c = item.2));
      [| |exact Hc].
    - intros v1 x v2 _ H. by apply parseGrid_step_shrinks in H.
    - intros v1 v2 x [_ Hsub _ _] H1 Hx c Hc'. apply H1; [done|].
      eapply elem_of_sublist; eauto. }
  intros s d [Hd Hin]%list_elem_of_filter.
  rewrite <- Hg, <- dict_items_perm in Hin. exact (Hall (s, d) Hin Hd).
Qed.

End Parsing.

(** ** The digit sequence *)

Global Instance key_le_trans {A} : Transitive (λ x y : string * A, String.le x.1 y.1).
Proof. intros x y z ??. by trans y.1. Qed.

Global Instance key_le_total {A} : Total (λ x y : string * A, String.le x.1 y.1).
Proof. intros x y. apply (total String.le). Qed.

Lemma squares_sorted : StronglySorted String.le squares.
Proof. by_evaluation. Qed.

Lemma sorted_items_squares v :
  dom v = list_to_set squares →
  sorted_items v = (λ square, (square, v !!! square)) <$> squares.
Proof.
  intros Hdom.
  assert (Hin : ∀ x, x ∈ map_to_list v ↔ x ∈ (λ s, (s, v !!! s)) <$> squares).
  { intros [k a]. rewrite elem_of_map_to_list, list_elem_of_fmap. split.
    - intros Hk. exists k. rewrite (lookup_total_correct _ _ _ Hk). split; [done|].
      apply (elem_of_list_to_set (C:=gset string)). rewrite <- Hdom.
      apply elem_of_dom. eauto.
    - intros (s & [= -> ->] & Hs). apply lookup_lookup_total, elem_of_dom.
      rewrite Hdom. by apply elem_of_list_to_set. }
  unfold sorted_items.
  apply (StronglySorted_unique_strong (λ x y : string * string, String.le x.1 y.1)).
  - intros [k1 a1] [k2 a2] H1 H2 Hle1 Hle2. simpl in *.
    assert (k1 = k2) as -> by (by apply (anti_symm String.le)).
    rewrite merge_sort_Permutation in H1. apply Hin in H2.
    apply elem_of_map_to_list in H1, H2. congruence.
  - apply StronglySorted_merge_sort; apply _.
  - generalize squares_sorted. generalize squares.
    induction 1 as [|s l _ IH Hs]; simpl; constructor; [done|].
    apply Forall_fmap. eapply Forall_impl; [exact Hs|]. done.
  - rewrite merge_sort_Permutation. apply NoDup_Permutation.
    + apply NoDup_map_to_list.
    + apply NoDup_fmap_2_strong; [|apply squares_NoDup]. by intros ???? [= ->].
    + done.
Qed.

Lemma sorted_items_digit_sequence v :
  dom v = list_to_set squares → (sorted_items v).*2 = digit_sequence v.
Proof.
  intros H. rewrite (sorted_items_squares _ H). unfold digit_sequence.
  by rewrite <- list_fmap_compose.
Qed.

(** ** The order of [min] *)

Lemma ltb_false_le a b : String.ltb a b = false ↔ String.le b a.
Proof.
  unfold String.le, String.ltb, String.leb.
  rewrite (String.compare_antisym b a). by destruct (a ?= b)%string.
Qed.

Lemma tuple_ltb_false x y : tuple_ltb x y = false ↔ tuple_le y x.
Proof.
  unfold tuple_ltb, tuple_le.
  rewrite orb_false_iff, andb_false_iff, Nat.ltb_ge, Nat.eqb_neq, ltb_false_le.
  split; [|intros [?|[? ?]]; split; [lia|lia|lia|auto]].
  intros [Hle [Hne|Hs]]; [left; lia|].
  destruct (decide (y.1 = x.1)); [by right|left; lia].
Qed.

Global Instance tuple_le_trans : Transitive tuple_le.
Proof.
  intros x y z [?|[? Hxy]] [?|[? Hyz]]; unfold tuple_le; try (left; lia).
  right. split; [lia|]. by trans y.2.
Qed.

Global Instance tuple_le_total : Total tuple_le.
Proof.
  intros x y. unfold tuple_le.
  destruct (lt_eq_lt_dec x.1 y.1) as [[?|?]|?]; [by left; left| |by right; left].
  destruct (total String.le x.2 y.2); [left|right]; right; auto.
Qed.

Lemma fold_min (l : list (nat * string)) x :
  let m := fold_left (λ m y, if tuple_ltb y m then y else m) l x in
  m ∈ x :: l ∧ tuple_le m x ∧ ∀ y, y ∈ l → tuple_le m y.
Proof.
  revert x. induction l as [|y l IH]; intros x; simpl.
  - split_and!; [left| |by intros ? ?%elem_of_nil].
    destruct (total tuple_le x x); done.
  - destruct (IH (if tuple_ltb y x then y else x)) as (Hin & Hle & Hall).
    destruct (tuple_ltb y x) eqn:Hlt.
    + assert (tuple_le y x) as Hyx.
      { destruct (total tuple_le y x) as [|Hxy]; [done|].
        apply tuple_ltb_false in Hxy. congruence. }
      split_and!.
      * by right.
      * by trans y.
      * intros z [->|Hz]%elem_of_cons; auto.
    + apply tuple_ltb_false in Hlt. split_and!.
      * apply elem_of_cons in Hin as [->|Hin]; [left|right; by right].
      * done.
      * intros z [->|Hz]%elem_of_cons; [by trans x|auto].
Qed.

Lemma py_min_least (l : list (nat * string)) :
  l ≠ [] →
  ∃ m, py_min tuple_ltb l = Some m ∧ m ∈ l ∧ ∀ y, y ∈ l → tuple_le m y.
Proof.
  destruct l as [|x l]; [done|]. intros _. eexists. split; [done|].
  destruct (fold_min l x) as (Hin & Hle & Hall). split; [done|].
  intros y [->|Hy]%elem_of_cons; auto.
Qed.

Lemma elem_of_unfilled v n s :
  (n, s) ∈ unfilled v ↔ s ∈ squares ∧ n = length (cand v s) ∧ 2 ≤ n.
Proof.
  unfold unfilled. rewrite list_elem_of_fmap. split.
  - intros (s' & [= -> ->] & [Hlen Hs]%list_elem_of_filter). by split_and!.
  - intros (Hs & -> & Hlen). exists s. split; [done|].
    by apply list_elem_of_filter.
Qed.

(** ** Candidate maps *)

Lemma only_digit {A} (l : list A) x : NoDup l → l ≠ [] → (∀ y, y ∈ l → y = x) → l = [x].
Proof.
  intros Hnd Hne Hall. destruct l as [|y [|z l]]; [done| |].
  - f_equal. apply Hall. left.
  - exfalso. apply NoDup_cons in Hnd as [Hy _]. apply Hy.
    rewrite (Hall y) by left. rewrite (Hall z) by (right; left). left.
Qed.

Lemma CandidateMap_NoDup v s : CandidateMap v → s ∈ squares → NoDup (cand v s).
Proof.
  intros [_ Hc] Hs. rewrite Forall_forall in Hc.
  apply (sublist_NoDup _ (chars digits)); [|apply Hc, Hs].
  by_evaluation.
Qed.

Lemma CandidateMap_has_squares v : CandidateMap v → has_squares v.
Proof.
  intros [Hdom _]. apply Forall_forall. intros s Hs. apply elem_of_dom.
  rewrite Hdom. by apply elem_of_list_to_set.
Qed.

Lemma dplaces_shrinks v v' d unit :
  shrinks v v' → dplaces v' d unit `sublist_of` dplaces v d unit.
Proof.
  intros Hsh. unfold dplaces. induction unit as [|q unit IH]; [done|].
  rewrite !filter_cons. fold (cand v q). fold (cand v' q).
  destruct (decide (d ∈ cand v' q)) as [Hin|Hout].
  - rewrite decide_True; [by constructor|].
    eapply elem_of_sublist; [done|]. apply Hsh.
  - case_decide; [by constructor|done].
Qed.

Lemma all_app {A} (f : Values → A → outcome) v pre l vk :
  chain f v pre vk → all_ f v (pre ++ l) = all_ f vk l.
Proof. induction 1 as [|v x v1 pre vk E _ IH]; simpl; [done|]. by rewrite E. Qed.

Lemma chain_split {A} (f : Values → A → outcome) v pre x post v' :
  chain f v (pre ++ x :: post) v' →
  ∃ vk vk', chain f v pre vk ∧ f vk x = Dict vk' ∧ chain f vk' post v'.
Proof.
  intros (vk & Hpre & Hrest)%chain_app.
  inversion Hrest as [|? ? vk' ? ? E Hpost]; subst. by exists vk, vk'.
Qed.

(** ** One step of the propagation *)

Lemma eliminate_S set_iter assign fuel v s d :
  eliminate set_iter assign (S fuel) v s d =
  if decide (d ∈ cand v s)
  then bind (reviewNextDigit set_iter assign fuel (<[s:=str_remove d (v !!! s)]> v) s)
            (λ v, reviewUnit assign v s d)
  else Dict v.
Proof. reflexivity. Qed.

Lemma reviewNextDigit_S set_iter assign fuel v s :
  reviewNextDigit set_iter assign (S fuel) v s =
  match cand v s with
  | [] => PyFalse
  | [d] => all_ (λ v p, eliminate set_iter assign fuel v p d) v (set_iter (peers s))
  | _ => Dict v
  end.
Proof. reflexivity. Qed.

Lemma removal_shrinks_cand v s d p :
  cand (<[s:=str_remove d (v !!! s)]> v) p `sublist_of` cand v p.
Proof.
  destruct (decide (s = p)) as [->|].
  - rewrite cand_insert_eq, chars_str_remove. apply sublist_filter.
  - by rewrite cand_insert_ne.
Qed.

Lemma removal_dom v s d :
  d ∈ cand v s → dom (<[s:=str_remove d (v !!! s)]> v) = dom v.
Proof.
  intros Hd. apply dom_insert_lookup_L, elem_of_dom, cand_nonempty_dom.
  intros Hnil. rewrite Hnil in Hd. by apply elem_of_nil in Hd.
Qed.

(** ** Enough fuel *)

Lemma weight_fresh v s x : v !! s = None → weight (<[s:=x]> v) = length (chars x) + weight v.
Proof. intros H. unfold weight. rewrite map_fold_insert_L; [done| |done]. intros. lia. Qed.

Lemma weight_delete v s x : v !! s = Some x → weight v = length (chars x) + weight (delete s v).
Proof.
  intros H. rewrite <- (insert_delete_id v s x H) at 1.
  apply weight_fresh, lookup_delete_eq.
Qed.

Lemma weight_mono v v' :
  dom v' = dom v → (∀ p, cand v' p `sublist_of` cand v p) → weight v' ≤ weight v.
Proof.
  revert v'. induction v as [|s x v Hs IH] using map_ind; intros v' Hdom Hsub.
  - rewrite dom_empty_L in Hdom. apply dom_empty_inv_L in Hdom as ->. done.
  - assert (is_Some (v' !! s)) as [y Hy].
    { apply elem_of_dom. rewrite Hdom, dom_insert_L.
      by apply elem_of_union_l, elem_of_singleton. }
    rewrite (weight_delete v' s y Hy), (weight_fresh v s x Hs).
    assert (length (chars y) ≤ length (chars x)).
    { specialize (Hsub s). unfold cand in Hsub.
      rewrite (lookup_total_correct _ _ _ Hy), lookup_total_insert_eq in Hsub.
      by apply sublist_length. }
    assert (weight (delete s v') ≤ weight v); [|lia].
    apply IH.
    + rewrite dom_delete_L, Hdom, dom_insert_L.
      apply not_elem_of_dom in Hs. apply set_eq. intros q.
      rewrite elem_of_difference, elem_of_union, !elem_of_singleton.
      split; [by intros [[->|?] ?]|]. intros Hq. split; [by right|by intros ->].
    + intros p. destruct (decide (s = p)) as [->|Hne].
      * unfold cand at 1. rewrite lookup_total_delete_eq. apply sublist_nil_l.
      * specialize (Hsub p). unfold cand in *.
        by rewrite lookup_total_delete_ne, lookup_total_insert_ne in *.
Qed.

Lemma shrinks_weight v v' : shrinks v v' → weight v' ≤ weight v.
Proof. intros H. apply weight_mono; apply H. Qed.

Lemma weight_removal v s d :
  d ∈ cand v s → weight (<[s:=str_remove d (v !!! s)]> v) < weight v.
Proof.
  intros Hd. assert (is_Some (v !! s)) as [x Hx].
  { apply elem_of_dom, cand_nonempty_dom. intros Hnil. rewrite Hnil in Hd.
    by apply elem_of_nil in Hd. }
  unfold cand in Hd. rewrite (lookup_total_correct _ _ _ Hx) in *.
  rewrite <- insert_delete_eq, weight_fresh by apply lookup_delete_eq.
  rewrite (weight_delete v s x Hx), chars_str_remove.
  assert (length (filter (λ c, c ≠ d) (chars x)) < length (chars x)); [|lia].
  apply (length_filter_lt _ _ d); [done|]. by intros H.
Qed.

Lemma all_settled {A} (f : Values → A → outcome) (P : Values → Prop) v l :
  (∀ v1 x, P v1 → settled (f v1 x)) →
  (∀ v1 x v2, P v1 → f v1 x = Dict v2 → P v2) →
  P v → settled (all_ f v l).
Proof.
  intros Hf Hkeep. revert v. induction l as [|x l IH]; intros v Hv; simpl; [done|].
  specialize (Hf v x Hv). destruct (f v x) as [v1| | |] eqn:E; simpl; try done.
  apply IH. by eapply Hkeep.
Qed.

Section Fuel.

Variable set_iter : gset string → list string.
Variable assign : Values → string → ascii → outcome.
Variable bound : nat.
Hypothesis set_iter_perm : ∀ X, set_iter X ≡ₚ elements X.
Hypothesis assign_shrinks : assign_ok assign.
Hypothesis assign_settles : ∀ v s d, weight v < bound → settled (assign v s d).

Lemma reviewUnit_settles v s d : weight v < bound → settled (reviewUnit assign v s d).
Proof.
  intros Hv. unfold reviewUnit.
  apply (all_settled _ (λ v, weight v < bound)); [| |done].
  - intros v1 unit Hv1. unfold reviewUnit_step.
    destruct (dplaces v1 d unit) as [|place [|]]; [done| |done].
    by apply assign_settles.
  - intros v1 unit v2 Hv1 H.
    apply (reviewUnit_step_shrinks assign assign_shrinks) in H as [H _].
    apply shrinks_weight in H. lia.
Qed.

Lemma eliminate_reviewNextDigit_settle fuel :
  (∀ v s d, weight v ≤ bound → 2 * weight v + 1 ≤ fuel →
     settled (eliminate set_iter assign fuel v s d)) ∧
  (∀ v s, weight v < bound → 2 * weight v + 2 ≤ fuel →
     settled (reviewNextDigit set_iter assign fuel v s)).
Proof.
  induction fuel as [|fuel [IHe IHr]]; [split; intros; lia|]. split.
  - intros v s d Hv Hfuel. rewrite eliminate_S. case_decide as Hd; [|done].
    pose proof (weight_removal v s d Hd) as Hlt.
    set (v1 := <[s:=str_remove d (v !!! s)]> v) in *.
    assert (settled (reviewNextDigit set_iter assign fuel v1 s)) as Hr
      by (apply IHr; lia).
    destruct (reviewNextDigit set_iter assign fuel v1 s) as [v2| | |] eqn:E2;
      try done.
    simpl. apply reviewUnit_settles.
    apply (eliminate_reviewNextDigit_shrink set_iter assign set_iter_perm
             assign_shrinks) in E2 as (Hdom & Hsub & _).
    pose proof (weight_mono v1 v2 Hdom Hsub). lia.
  - intros v s Hv Hfuel. rewrite reviewNextDigit_S.
    destruct (cand v s) as [|d [|]]; [done| |done].
    apply (all_settled _ (λ v1, weight v1 ≤ weight v)); [| |done].
    + intros v1 p Hv1. apply IHe; lia.
    + intros v1 p v2 Hv1 H.
      apply (eliminate_shrinks set_iter assign set_iter_perm assign_shrinks)
        in H as [H _].
      apply shrinks_weight in H. lia.
Qed.

Lemma assignPosibleValues_settles fuel v s d :
  weight v ≤ bound → 2 * weight v + 1 ≤ fuel →
  settled (assignPosibleValues set_iter assign fuel v s d).
Proof.
  intros Hv Hfuel. unfold assignPosibleValues.
  apply (all_settled _ (λ v1, weight v1 ≤ weight v)); [| |done].
  - intros v1 c Hv1. apply eliminate_reviewNextDigit_settle; lia.
  - intros v1 c v2 Hv1 H.
    apply (eliminate_shrinks set_iter assign set_iter_perm assign_shrinks)
      in H as [H _].
    apply shrinks_weight in H. lia.
Qed.

End Fuel.

Lemma Assign_settles set_iter n v s d :
  (∀ X, set_iter X ≡ₚ elements X) →
  2 * weight v + 1 ≤ n → settled (Assign set_iter n v s d).
Proof.
  intros Hperm. revert v s d. induction n as [|n IH]; intros v s d Hn; [lia|].
  cbn [Assign].
  apply (assignPosibleValues_settles _ _ (weight v)); [done| | |done..].
  - by apply Assign_shrinks.
  - intros v0 s0 d0 Hv0. apply IH. lia.
Qed.

Lemma assignPosibleValues_Assign_settles set_iter n fuel v s d :
  (∀ X, set_iter X ≡ₚ elements X) →
  2 * weight v < fuel → 2 * weight v < n →
  settled (assignPosibleValues set_iter (Assign set_iter n) fuel v s d).
Proof.
  intros Hperm Hfuel Hn.
  apply (assignPosibleValues_settles _ _ (weight v)); [done| | |done|lia].
  - by apply Assign_shrinks.
  - intros v0 s0 d0 Hv0. apply Assign_settles; [done|lia].
Qed.

(** ** No exception within the propagation *)

Lemma all_no_exception {A} (f : Values → A → outcome) v l :
  (∀ v1 x, no_exception (f v1 x)) → no_exception (all_ f v l).
Proof.
  intros Hf. revert v. induction l as [|x l IH]; intros v e; simpl; [done|].
  specialize (Hf v x). destruct (f v x) as [v1| |e'|]; simpl.
  - apply IH.
  - done.
  - intros [= ->]. by apply (Hf e).
  - done.
Qed.

Lemma eliminate_no_exception set_iter assign fuel :
  (∀ v s d, no_exception (assign v s d)) →
  (∀ v s d, no_exception (eliminate set_iter assign fuel v s d)) ∧
  (∀ v s, no_exception (reviewNextDigit set_iter assign fuel v s)).
Proof.
  intros Hassign. induction fuel as [|fuel [IHe IHr]]; [done|]. split.
  - intros v s d e. rewrite eliminate_S. case_decide; [|done].
    specialize (IHr (<[s:=str_remove d (v !!! s)]> v) s).
    destruct (reviewNextDigit _ _ _ _ _) as [v2| |e'|]; simpl.
    + apply all_no_exception. intros v1 unit e1. unfold reviewUnit_step.
      destruct (dplaces v1 d unit) as [|place [|]]; [done| |done]. apply Hassign.
    + done.
    + intros [= ->]. by apply (IHr e).
    + done.
  - intros v s e. rewrite reviewNextDigit_S.
    destruct (cand v s) as [|d [|]]; [done| |done].
    apply all_no_exception. intros v1 p. apply IHe.
Qed.

Lemma assignPosibleValues_no_exception set_iter assign fuel v s d :
  (∀ v s d, no_exception (assign v s d)) →
  no_exception (assignPosibleValues set_iter assign fuel v s d).
Proof.
  intros Hassign. apply all_no_exception. intros v1 c.
  by apply eliminate_no_exception.
Qed.

Lemma Assign_no_exception set_iter n v s d : no_exception (Assign set_iter n v s d).
Proof.
  revert v s d. induction n as [|n IH]; intros v s d; [done|].
  by apply assignPosibleValues_no_exception.
Qed.

(** ** Solved maps, continued *)

Lemma NoDup_fmap_eq {A B} (f : A → B) (l : list A) x y :
  NoDup (f <$> l) → x ∈ l → y ∈ l → f x = f y → x = y.
Proof.
  induction l as [|z l IH]; simpl; [by intros _ ?%elem_of_nil|].
  intros [Hz Hnd]%NoDup_cons [->|Hx]%elem_of_cons [->|Hy]%elem_of_cons Heq;
    [done| | |by apply IH].
  - destruct Hz. rewrite Heq. apply list_elem_of_fmap. by exists y.
  - destruct Hz. rewrite <- Heq. apply list_elem_of_fmap. by exists x.
Qed.

Lemma digit_strings_NoDup : NoDup (str1 <$> chars digits).
Proof. by_evaluation. Qed.

Lemma solved_map_peers sol s p d :
  solved_map sol → p ∈ peers s → sol !!! s = str1 d → sol !!! p ≠ str1 d.
Proof.
  intros (_ & _ & Hunits) Hp Hs Hpd. unfold peers in Hp.
  apply elem_of_difference in Hp as [Hp Hne].
  apply elem_of_list_to_set, list_elem_of_join in Hp as (unit & Hpu & Hu).
  apply list_elem_of_filter in Hu as [Hsu Hu].
  apply Hne, elem_of_singleton. symmetry.
  apply (NoDup_fmap_eq (λ q, sol !!! q) unit); [|done..|congruence].
  rewrite (Hunits unit Hu). apply digit_strings_NoDup.
Qed.

Lemma solved_map_place sol unit d :
  solved_map sol → unit ∈ unitlist → d ∈ chars digits →
  ∃ q, q ∈ unit ∧ sol !!! q = str1 d.
Proof.
  intros (_ & _ & Hunits) Hu Hd.
  assert (str1 d ∈ (λ q, sol !!! q) <$> unit) as Hin.
  { rewrite (Hunits unit Hu). apply list_elem_of_fmap. by exists d. }
  apply list_elem_of_fmap in Hin as (q & ? & ?). by exists q.
Qed.

Lemma solved_map_square sol s d : solved_map sol → sol !!! s = str1 d → s ∈ squares.
Proof.
  intros (Hdom & _ & _) Hs. apply (elem_of_list_to_set (C:=gset string)).
  rewrite <- Hdom. apply elem_of_dom. rewrite lookup_total_alt in Hs.
  destruct (sol !! s); [eauto|done].
Qed.

Lemma solved_map_digit sol s d : solved_map sol → sol !!! s = str1 d → d ∈ chars digits.
Proof.
  intros Hsol Hs. pose proof (solved_map_square _ _ _ Hsol Hs) as Hsq.
  destruct Hsol as (_ & Hdigit & _). destruct (Hdigit s Hsq) as (d' & Hd' & Hs').
  rewrite Hs in Hs'. by injection Hs' as ->.
Qed.

Lemma CandidateMap_square v s : CandidateMap v → cand v s ≠ [] → s ∈ squares.
Proof.
  intros [Hdom _] Hs. apply (elem_of_list_to_set (C:=gset string)).
  rewrite <- Hdom. by apply cand_nonempty_dom.
Qed.

Lemma CandidateMap_digit v s d : CandidateMap v → d ∈ cand v s → d ∈ chars digits.
Proof.
  intros Hmap Hd. assert (s ∈ squares) as Hs.
  { apply (CandidateMap_square v); [done|]. intros Hnil. rewrite Hnil in Hd.
    by apply elem_of_nil in Hd. }
  destruct Hmap as [_ Hc]. rewrite Forall_forall in Hc.
  eapply elem_of_sublist; [done|]. by apply Hc.
Qed.

Lemma CandidateMap_shrink v v' :
  dom v' = dom v → (∀ p, cand v' p `sublist_of` cand v p) →
  CandidateMap v → CandidateMap v'.
Proof.
  intros Hdom Hsub [Hd Hc]. split; [congruence|].
  eapply Forall_impl; [exact Hc|]. intros s Hs. simpl in *. by trans (cand v s).
Qed.

Lemma CandidateMap_removal v s d :
  d ∈ cand v s → CandidateMap v → CandidateMap (<[s:=str_remove d (v !!! s)]> v).
Proof.
  intros Hd. apply CandidateMap_shrink; [by apply removal_dom|].
  intros p. apply removal_shrinks_cand.
Qed.

Lemma fits_removal sol v s d :
  fits sol v → sol !!! s ≠ str1 d → fits sol (<[s:=str_remove d (v !!! s)]> v).
Proof.
  intros Hfit Hs q c Hq. destruct (decide (s = q)) as [->|].
  - rewrite cand_insert_eq, chars_str_remove. apply list_elem_of_filter.
    split; [congruence|by apply Hfit].
  - rewrite cand_insert_ne by done. by apply Hfit.
Qed.

Lemma fits_singleton sol v s d x :
  fits sol v → sol !!! s = str1 d → cand v s = [x] → x = d.
Proof.
  intros Hfit Hs Hx. apply Hfit in Hs. rewrite Hx in Hs.
  by apply list_elem_of_singleton in Hs.
Qed.

(** ** Propagation keeps the solutions *)

Lemma all_complete {A} (f : Values → A → outcome) (I : Values → Prop) v l :
  (∀ v1 x, x ∈ l → I v1 →
     f v1 x ≠ PyFalse ∧ ∀ v2, f v1 x = Dict v2 → I v2) →
  I v → all_ f v l ≠ PyFalse ∧ ∀ v', all_ f v l = Dict v' → I v'.
Proof.
  revert v. induction l as [|x l IH]; intros v Hf Hv; simpl.
  - split; [done|]. by intros ? [= <-].
  - destruct (Hf v x) as [Hx Hkeep]; [left|done|].
    destruct (f v x) as [v1| | |] eqn:E; simpl; try done.
    apply IH; [|by apply Hkeep]. intros v2 y Hy. apply Hf. by right.
Qed.

Section Complete.

Variable set_iter : gset string → list string.
Variable assign : Values → string → ascii → outcome.
Variable sol : Values.
Hypothesis set_iter_perm : ∀ X, set_iter X ≡ₚ elements X.
Hypothesis assign_shrinks : assign_ok assign.
Hypothesis sol_solved : solved_map sol.
Hypothesis assign_fits : assign_complete sol assign.

Lemma reviewUnit_complete v s d :
  CandidateMap v → fits sol v → d ∈ chars digits →
  reviewUnit assign v s d ≠ PyFalse ∧
  ∀ v', reviewUnit assign v s d = Dict v' → CandidateMap v' ∧ fits sol v'.
Proof.
  intros Hmap Hfit Hd. unfold reviewUnit.
  apply (all_complete _ (λ v, CandidateMap v ∧ fits sol v)); [|done].
  intros v1 unit Hu [Hmap1 Hfit1]. apply list_elem_of_filter in Hu as [_ Hu].
  destruct (solved_map_place sol unit d sol_solved Hu Hd) as (q & Hq & Hqd).
  assert (q ∈ dplaces v1 d unit) as Hin.
  { apply list_elem_of_filter. split; [by apply Hfit1|done]. }
  unfold reviewUnit_step. destruct (dplaces v1 d unit) as [|place [|]] eqn:E.
  - by apply elem_of_nil in Hin.
  - apply list_elem_of_singleton in Hin as ->.
    destruct (assign_fits v1 place d Hmap1 Hfit1 Hqd) as [Hne Hkeep].
    split; [done|]. intros v2 Hv2. split; [|by apply Hkeep].
    apply assign_shrinks in Hv2 as [Hsh _]. by eapply shrinks_CandidateMap.
  - split; [done|]. by intros v2 [= <-].
Qed.

Lemma eliminate_reviewNextDigit_complete fuel :
  (∀ v s d, CandidateMap v → fits sol v → sol !!! s ≠ str1 d →
     eliminate set_iter assign fuel v s d ≠ PyFalse ∧
     ∀ v', eliminate set_iter assign fuel v s d = Dict v' →
       CandidateMap v' ∧ fits sol v') ∧
  (∀ v s, CandidateMap v → fits sol v → s ∈ squares →
     reviewNextDigit set_iter assign fuel v s ≠ PyFalse ∧
     ∀ v', reviewNextDigit set_iter assign fuel v s = Dict v' →
       CandidateMap v' ∧ fits sol v').
Proof.
  induction fuel as [|fuel [IHe IHr]]; [done|]. split.
  - intros v s d Hmap Hfit Hs. rewrite eliminate_S. case_decide as Hd; cycle 1.
    { split; [done|]. by intros ? [= <-]. }
    assert (s ∈ squares) as Hsq.
    { apply (CandidateMap_square v); [done|]. intros Hnil. rewrite Hnil in Hd.
      by apply elem_of_nil in Hd. }
    destruct (IHr (<[s:=str_remove d (v !!! s)]> v) s) as [Hne Hkeep];
      [by apply CandidateMap_removal|by apply fits_removal|done|].
    destruct (reviewNextDigit _ _ _ _ _) as [v2| | |]; simpl; try done.
    destruct (Hkeep v2 eq_refl) as [Hmap2 Hfit2].
    apply reviewUnit_complete; [done..|]. by apply (CandidateMap_digit v s).
  - intros v s Hmap Hfit Hs. rewrite reviewNextDigit_S.
    destruct sol_solved as (_ & Hdigit & _).
    destruct (Hdigit s Hs) as (d & _ & Hsd).
    pose proof (Hfit s d Hsd) as Hin.
    destruct (cand v s) as [|x [|]] eqn:E.
    + by apply elem_of_nil in Hin.
    + apply list_elem_of_singleton in Hin as ->.
      apply (all_complete _ (λ v, CandidateMap v ∧ fits sol v)); [|done].
      intros v1 p Hp [Hmap1 Hfit1]. apply IHe; [done..|].
      apply (solved_map_peers sol s); [done| |done].
      rewrite set_iter_perm in Hp. by apply elem_of_elements in Hp.
    + split; [done|]. by intros ? [= <-].
Qed.

Lemma assignPosibleValues_complete fuel :
  assign_complete sol (assignPosibleValues set_iter assign fuel).
Proof.
  intros v s d Hmap Hfit Hs. unfold assignPosibleValues.
  destruct (all_complete
    (λ v c, eliminate set_iter assign fuel v s c)
    (λ v, CandidateMap v ∧ fits sol v) v (chars (str_remove d (v !!! s))))
    as [Hne Hkeep]; [|done|].
  - intros v1 c Hc [Hmap1 Hfit1]. apply eliminate_reviewNextDigit_complete; [done..|].
    rewrite chars_str_remove in Hc. apply list_elem_of_filter in Hc as [Hc _].
    rewrite Hs. by intros [= ->].
  - split; [done|]. intros v' Hv'. by apply Hkeep.
Qed.

End Complete.

Lemma Assign_complete set_iter n sol :
  (∀ X, set_iter X ≡ₚ elements X) → solved_map sol →
  assign_complete sol (Assign set_iter n).
Proof.
  intros Hperm Hsol. induction n as [|n IH]; [by intros v s d _ _ _|].
  cbn [Assign]. apply assignPosibleValues_complete; [done| |done..].
  by apply Assign_shrinks.
Qed.

(** ** The search keeps the solutions *)

Lemma py_min_elem (l : list (nat * string)) m :
  py_min tuple_ltb l = Some m → m ∈ l ∧ ∀ y, y ∈ l → tuple_le m y.
Proof.
  intros Hm. destruct (py_min_least l) as (m' & Hm' & Hin & Hle).
  - by intros ->.
  - rewrite Hm in Hm'. by injection Hm' as <-.
Qed.

Section SearchComplete.

Variable assign : Values → string → ascii → outcome.
Variable sol : Values.
Hypothesis assign_shrinks : assign_ok assign.
Hypothesis sol_solved : solved_map sol.
Hypothesis assign_fits : assign_complete sol assign.

Lemma deepSearch_complete fuel v :
  CandidateMap v → fits sol v → deepSearch assign fuel (Dict v) ≠ PyFalse.
Proof.
  revert v. induction fuel as [|fuel IH]; intros v Hmap Hfit; [done|].
  cbn [deepSearch]. case_decide; [done|].
  destruct (py_min tuple_ltb (unfilled v)) as [[n s]|] eqn:Hmin; [|done].
  apply py_min_elem in Hmin as [(Hs & _ & _)%elem_of_unfilled _].
  intros Hall. rewrite validValues_PyFalse in Hall.
  destruct sol_solved as (_ & Hdigit & _).
  destruct (Hdigit s Hs) as (d & _ & Hsd).
  specialize (Hall d (Hfit s d Hsd)). cbn beta in Hall.
  destruct (assign_fits v s d Hmap Hfit Hsd) as [Hne Hkeep].
  destruct (assign v s d) as [v1| | |] eqn:E; [|done|by destruct fuel..].
  revert Hall. apply IH; [|by apply Hkeep].
  apply assign_shrinks in E as [Hsh _]. by eapply shrinks_CandidateMap.
Qed.

End SearchComplete.

Lemma fits_all_digits sol : solved_map sol → fits sol all_digits.
Proof.
  intros Hsol s d Hs. unfold cand.
  rewrite all_digits_lookup by by eapply solved_map_square.
  by eapply solved_map_digit.
Qed.

Section ParsingComplete.

Variable set_iter : gset string → list string.
Variable dict_items : gmap string ascii → list (string * ascii).
Variable assign : Values → string → ascii → outcome.
Variable sol : Values.
Variable grid : string.
Hypothesis set_iter_perm : ∀ X, set_iter X ≡ₚ elements X.
Hypothesis dict_items_perm : ∀ m, dict_items m ≡ₚ map_to_list m.
Hypothesis assign_shrinks : assign_ok assign.
Hypothesis assign_fits : assign_complete sol assign.
Hypothesis sol_solution : solution grid sol.

Lemma parseGrid_complete fuel :
  parseGrid set_iter dict_items assign fuel grid ≠ PyFalse ∧
  ∀ v', parseGrid set_iter dict_items assign fuel grid = Dict v' →
    CandidateMap v' ∧ fits sol v'.
Proof.
  destruct sol_solution as [Hsol Hgiven].
  unfold parseGrid. destruct (getGridValues grid) as [given|] eqn:Hg; [|done].
  apply getGridValues_Some in Hg as [_ Hg].
  apply (all_complete _ (λ v, CandidateMap v ∧ fits sol v)).
  - intros v1 [s d] Hin [Hmap1 Hfit1]. unfold parseGrid_step. cbn [fst snd].
    case_decide as Hd; [|split; [done|by intros ? [= <-]]].
    assert (sol !!! s = str1 d) as Hsd.
    { apply Hgiven, list_elem_of_filter. split; [done|].
      by rewrite <- Hg, <- dict_items_perm. }
    destruct (assignPosibleValues_complete set_iter assign sol set_iter_perm
                assign_shrinks Hsol assign_fits fuel v1 s d Hmap1 Hfit1 Hsd)
      as [Hne Hkeep].
    split; [done|]. intros v2 Hv2. split; [|by apply Hkeep].
    apply (assignPosibleValues_shrinks set_iter assign set_iter_perm assign_shrinks)
      in Hv2 as [Hsh _].
    by eapply shrinks_CandidateMap.
  - split; [apply all_digits_CandidateMap|by apply fits_all_digits].
Qed.

End ParsingComplete.

(** ** Enough fuel for the search *)

Lemma weight_lt v v' s :
  dom v' = dom v → (∀ p, cand v' p `sublist_of` cand v p) →
  length (cand v' s) < length (cand v s) → weight v' < weight v.
Proof.
  intros Hdom Hsub Hlt.
  assert (is_Some (v !! s)) as [x Hx].
  { apply elem_of_dom, cand_nonempty_dom. intros Hnil. rewrite Hnil in Hlt.
    simpl in Hlt. lia. }
  assert (is_Some (v' !! s)) as [y Hy].
  { apply elem_of_dom. rewrite Hdom. apply elem_of_dom. eauto. }
  rewrite (weight_delete v s x Hx), (weight_delete v' s y Hy).
  unfold cand in Hlt.
  rewrite (lookup_total_correct _ _ _ Hx), (lookup_total_correct _ _ _ Hy) in Hlt.
  assert (weight (delete s v') ≤ weight (delete s v)); [|lia].
  apply weight_mono.
  - by rewrite !dom_delete_L, Hdom.
  - intros p. unfold cand. destruct (decide (s = p)) as [->|].
    + by rewrite !lookup_total_delete_eq.
    + rewrite !lookup_total_delete_ne by done. apply Hsub.
Qed.

Lemma validValues_settled {A} (f : A → outcome) l :
  (∀ x, x ∈ l → settled (f x)) → settled (validValues f l).
Proof.
  induction l as [|x l IH]; intros Hf; simpl; [done|].
  pose proof (Hf x (list_elem_of_here _ _)) as Hx.
  destruct (f x); try done. apply IH. intros y Hy. apply Hf. by right.
Qed.

Section SearchFuel.

Variable assign : Values → string → ascii → outcome.
Variable bound : nat.
Hypothesis assign_shrinks : assign_ok assign.
Hypothesis assign_settles : ∀ v s d, weight v ≤ bound → settled (assign v s d).

Lemma deepSearch_settles fuel v :
  CandidateMap v → (∀ s, s ∈ squares → cand v s ≠ []) →
  weight v ≤ bound → weight v < fuel →
  settled (deepSearch assign fuel (Dict v)).
Proof.
  revert v. induction fuel as [|fuel IH]; intros v Hmap Hne Hbound Hfuel; [lia|].
  cbn [deepSearch]. case_decide as Hall; [done|].
  destruct (py_min tuple_ltb (unfilled v)) as [[n s]|] eqn:Hmin.
  - apply py_min_elem in Hmin as [(Hs & -> & Hlen)%elem_of_unfilled _].
    apply validValues_settled. intros d Hd.
    pose proof (assign_settles v s d Hbound) as Hsettled.
    destruct (assign v s d) as [v1| | |] eqn:E; [|by destruct fuel|done..].
    apply assign_shrinks in E as [Hsh Honly].
    assert (weight v1 < weight v) as Hlt.
    { apply (weight_lt _ _ s); [apply Hsh..|].
      assert (cand v1 s = [d]) as ->; [|simpl; lia].
      apply only_digit; [|by apply Hsh, Hne|done].
      apply CandidateMap_NoDup; [by eapply shrinks_CandidateMap|done]. }
    apply IH; [by eapply shrinks_CandidateMap| |lia..].
    intros q Hq. by apply Hsh, Hne.
  - exfalso. apply Hall, Forall_forall. intros s Hs.
    destruct (decide (2 ≤ length (cand v s))) as [Hlen|Hlen].
    + assert ((length (cand v s), s) ∈ unfilled v) as Hin
        by by apply elem_of_unfilled.
      destruct (unfilled v); [by apply elem_of_nil in Hin|done].
    + specialize (Hne s Hs). fold (cand v s).
      destruct (cand v s) as [|? [|]]; simpl in *; try done; lia.
Qed.

End SearchFuel.

Lemma weight_all_digits : weight all_digits = 729.
Proof. by vm_compute. Qed.

Lemma all_digits_nonempty s : s ∈ squares → cand all_digits s ≠ [].
Proof. intros Hs. unfold cand. by rewrite all_digits_lookup. Qed.

Lemma parseGrid_settles set_iter dict_items n fuel grid :
  (∀ X, set_iter X ≡ₚ elements X) →
  length (grid_chars grid) = 81 → 2 * 729 < fuel → 2 * 729 < n →
  settled (parseGrid set_iter dict_items (Assign set_iter n) fuel grid).
Proof.
  intros Hperm Hlen Hfuel Hn. unfold parseGrid, getGridValues.
  rewrite decide_True by done.
  apply (all_settled _ (λ v, weight v ≤ 729)); [| |by rewrite weight_all_digits].
  - intros v1 item Hv1. unfold parseGrid_step. case_decide; [|done].
    apply assignPosibleValues_Assign_settles; [done|lia..].
  - intros v1 item v2 Hv1. unfold parseGrid_step.
    case_decide as Hdigit; [|by intros [= <-]]. intros H.
    apply (assignPosibleValues_shrinks set_iter _ Hperm (Assign_shrinks _ n Hperm))
      in H as [H _].
    apply shrinks_weight in H. lia.
Qed.

Lemma solve_settles set_iter dict_items n fuel grid :
  (∀ X, set_iter X ≡ₚ elements X) →
  (∀ m, dict_items m ≡ₚ map_to_list m) →
  length (grid_chars grid) = 81 → 2 * 729 < fuel → 2 * 729 < n →
  settled (solve set_iter dict_items (Assign set_iter n) fuel grid).
Proof.
  intros Hperm Hitems Hlen Hfuel Hn. unfold solve.
  pose proof (parseGrid_settles set_iter dict_items n fuel grid Hperm Hlen Hfuel Hn)
    as Hparse.
  destruct (parseGrid _ _ _ _ _) as [v| | |] eqn:E; [|by destruct fuel|done..].
  apply (parseGrid_shrinks _ _ _ Hperm Hitems (Assign_shrinks _ n Hperm))
    in E as [Hsh _].
  pose proof (shrinks_weight _ _ Hsh) as Hw. rewrite weight_all_digits in Hw.
  apply (deepSearch_settles _ 729); [by apply Assign_shrinks| | | |lia..].
  - intros v0 s d Hv0. apply Assign_settles; [done|lia].
  - eapply shrinks_CandidateMap; [done|]. apply all_digits_CandidateMap.
  - intros s Hs. by apply Hsh, all_digits_nonempty.
Qed.

(** ** What [solve] returns *)

Lemma solve_sound set_iter dict_items assign fuel grid values :
  (∀ X, set_iter X ≡ₚ elements X) →
  (∀ m, dict_items m ≡ₚ map_to_list m) →
  assign_ok assign →
  solve set_iter dict_items assign fuel grid = Dict values →
  solution grid values.
Proof.
  intros Hset Hitems Hassign Hsolve. unfold solve in Hsolve.
  apply (deepSearch_shrinks _ Hassign) in Hsolve as (v1 & Hparse & Hsh & Hone).
  apply (parseGrid_shrinks _ _ _ Hset Hitems Hassign) in Hparse as [Hsh1 Hgiven].
  assert (Hsolved : solved_map values).
  { apply solved_map_intro; [by trans v1|done]. }
  split; [done|].
  intros s d Hsd. apply chars_singleton. change (cand values s = [d]).
  assert (s ∈ squares) as Hs.
  { apply list_elem_of_filter in Hsd as [_ Hsd]. by apply elem_of_zip_l in Hsd. }
  destruct Hsolved as (_ & Hdigit & _).
  destruct (Hdigit s Hs) as (x & _ & Hx). unfold str1 in Hx.
  assert (cand values s = [x]) as Hc by (unfold cand; by rewrite Hx).
  rewrite Hc. f_equal. apply (Hgiven s d Hsd).
  eapply elem_of_sublist; [|apply Hsh]. rewrite Hc. left.
Qed.

Lemma solve_complete set_iter dict_items n fuel grid sol :
  (∀ X, set_iter X ≡ₚ elements X) →
  (∀ m, dict_items m ≡ₚ map_to_list m) →
  solution grid sol →
  solve set_iter dict_items (Assign set_iter n) fuel grid ≠ PyFalse.
Proof.
  intros Hset Hitems Hsol. unfold solve.
  pose proof (Assign_shrinks set_iter n Hset) as Hassign.
  pose proof (Assign_complete set_iter n sol Hset (proj1 Hsol)) as Hfits.
  destruct (parseGrid_complete set_iter dict_items _ sol grid Hset Hitems Hassign
              Hfits Hsol fuel) as [Hne Hkeep].
  destruct (parseGrid _ _ _ _ _) as [v| | |] eqn:E; [|done|by destruct fuel..].
  destruct (Hkeep v eq_refl) as [Hmap Hfit].
  by apply (deepSearch_complete _ sol Hassign (proj1 Hsol) Hfits).
Qed.

(** With fuel for all the eliminations a map with 81 squares allows,
    [solve] finds a solution whenever the grid has one. *)
Lemma solve_finds set_iter dict_items n fuel grid sol :
  (∀ X, set_iter X ≡ₚ elements X) →
  (∀ m, dict_items m ≡ₚ map_to_list m) →
  length (grid_chars grid) = 81 →
  solution grid sol →
  2 * 729 < fuel → 2 * 729 < n →
  ∃ values, solve set_iter dict_items (Assign set_iter n) fuel grid = Dict values ∧
            solution grid values.
Proof.
  intros Hset Hitems Hlen Hsol Hfuel Hn.
  pose proof (solve_settles set_iter dict_items n fuel grid Hset Hitems Hlen Hfuel Hn)
    as Hsettled.
  pose proof (solve_complete set_iter dict_items n fuel grid sol Hset Hitems Hsol)
    as Hne.
  destruct (solve _ _ _ _ _) as [values| | |] eqn:E; try done.
  exists values. split; [done|].
  eapply solve_sound; [done..| |done]. by apply Assign_shrinks.
Qed.

(** A solved map within which a solution lies is that solution. *)
Lemma fits_solved sol v : solved_map sol → solved_map v → fits sol v → sol = v.
Proof.
  intros Hsol Hv Hfit. apply map_eq. intros s.
  destruct (decide (s ∈ squares)) as [Hs|Hs].
  - destruct Hsol as (Hd1 & Hdigit1 & _). destruct Hv as (Hd2 & Hdigit2 & _).
    destruct (Hdigit1 s Hs) as (d & _ & Hsd).
    destruct (Hdigit2 s Hs) as (x & _ & Hsx).
    pose proof (Hfit s d Hsd) as Hin. unfold cand in Hin. rewrite Hsx in Hin.
    apply list_elem_of_singleton in Hin as ->.
    assert (s ∈ dom sol) as [y Hy]%elem_of_dom
      by (rewrite Hd1; by apply elem_of_list_to_set).
    assert (s ∈ dom v) as [z Hz]%elem_of_dom
      by (rewrite Hd2; by apply elem_of_list_to_set).
    rewrite (lookup_total_correct _ _ _ Hy) in Hsd.
    rewrite (lookup_total_correct _ _ _ Hz) in Hsx. congruence.
  - destruct Hsol as (Hd1 & _). destruct Hv as (Hd2 & _).
    assert (s ∉ dom sol) as ->%not_elem_of_dom
      by (rewrite Hd1; by rewrite elem_of_list_to_set).
    assert (s ∉ dom v) as ->%not_elem_of_dom
      by (rewrite Hd2; by rewrite elem_of_list_to_set).
    done.
Qed.

(** When propagation alone solves the grid, the grid has no other
    solution. *)
Lemma parseGrid_unique set_iter dict_items n fuel grid v sol :
  (∀ X, set_iter X ≡ₚ elements X) →
  (∀ m, dict_items m ≡ₚ map_to_list m) →
  parseGrid set_iter dict_items (Assign set_iter n) fuel grid = Dict v →
  solved_map v → solution grid sol → sol = v.
Proof.
  intros Hset Hitems Hparse Hv Hsol.
  pose proof (Assign_shrinks set_iter n Hset) as Hassign.
  pose proof (Assign_complete set_iter n sol Hset (proj1 Hsol)) as Hfits.
  destruct (parseGrid_complete set_iter dict_items _ sol grid Hset Hitems Hassign
              Hfits Hsol fuel) as [_ Hkeep].
  destruct (Hkeep v Hparse) as [_ Hfit]. apply fits_solved; [apply Hsol|done..].
Qed.

Lemma sublist_StronglySorted {A} (R : relation A) (l k : list A) :
  l `sublist_of` k → StronglySorted R k → StronglySorted R l.
Proof.
  induction 1 as [|x l k Hlk IH|x l k Hlk IH]; intros Hk; [done| |].
  - apply StronglySorted_inv in Hk as [Hk Hx]. constructor; [by apply IH|].
    rewrite Forall_forall in Hx. apply Forall_forall. intros y Hy. apply Hx.
    by eapply elem_of_sublist.
  - apply StronglySorted_inv in Hk as [Hk _]. by apply IH.
Qed.

Lemma digits_ascending : StronglySorted digit_lt (chars digits).
Proof. repeat constructor; unfold digit_lt; simpl; lia. Qed.

(** ** The examples, run *)

Lemma easy_grid_solved :
  solve elements map_to_list (Assign elements 60) 60 easy_grid = Dict easy_solution.
Proof. vm_cast_no_check (eq_refl (Dict easy_solution)). Qed.

Lemma easy_grid_parsed :
  parseGrid elements map_to_list (Assign elements 60) 60 easy_grid = Dict easy_solution.
Proof. vm_cast_no_check (eq_refl (Dict easy_solution)). Qed.

Lemma twice_grid_unsolved :
  solve elements map_to_list (Assign elements 40) 40 twice_grid = PyFalse.
Proof. vm_cast_no_check (eq_refl PyFalse). Qed.

Lemma all_digits_has_squares : has_squares all_digits.
Proof. apply CandidateMap_has_squares, all_digits_CandidateMap. Qed.

Lemma A1_square : "A1" ∈ squares.
Proof. by_evaluation. Qed.

Lemma elements_perm (X : gset string) : elements X ≡ₚ elements X.
Proof. done. Qed.

Lemma map_to_list_perm (m : gmap string ascii) : map_to_list m ≡ₚ map_to_list m.
Proof. done. Qed.

(** * The claims *)

(** C1. Whenever [solve] returns a map, the map is a solution of the grid:
    each of the 81 squares holds one digit from 1 to 9, each of the 27 units
    holds every digit once, the givens of the grid are kept, and the digits
    handed over by [getMatrix] are those of the 81 squares from A1 to I9.
    This holds in whatever order sets and dicts are traversed, and for every
    [self.assign] that only eliminates, as the Assign of the specification
    does. *)
Theorem solve_returns_solution set_iter dict_items assign fuel grid values :
  (∀ X, set_iter X ≡ₚ elements X) →
  (∀ m, dict_items m ≡ₚ map_to_list m) →
  assign_ok assign →
  solve set_iter dict_items assign fuel grid = Dict values →
  length squares = 81 ∧ length unitlist = 27 ∧
  solved_map values ∧ respects grid values ∧
  (sorted_items values).*2 = digit_sequence values ∧
  length (digit_sequence values) = 81.
Proof.
  intros Hset Hitems Hassign Hsolve.
  destruct (solve_sound _ _ _ _ _ _ Hset Hitems Hassign Hsolve) as [Hsolved Hgiven].
  split_and!; [done..| |].
  - apply sorted_items_digit_sequence. by destruct Hsolved as [? _].
  - unfold digit_sequence. by rewrite length_fmap.
Qed.

Lemma solve_returns_solution_witness :
  length squares = 81 ∧ length unitlist = 27 ∧
  solved_map easy_solution ∧ respects easy_grid easy_solution ∧
  (sorted_items easy_solution).*2 = digit_sequence easy_solution ∧
  length (digit_sequence easy_solution) = 81.
Proof.
  exact (solve_returns_solution elements map_to_list (Assign elements 60) 60
           easy_grid easy_solution elements_perm map_to_list_perm
           (Assign_shrinks elements 60 elements_perm) easy_grid_solved).
Defined.

(** C2.  On the grid with the digit 1 at both A1 and A2 [solve] returns
    [False]; [timeSolve] hands it to [getMatrix], whose [dict.items(False)]
    raises [TypeError], and ends with this exception instead of a result.
    The same happens on every grid of 81 characters that has no solution. *)
Theorem timeSolve_aborts (matrix : Type) (convertStringToMatrix : list string → matrix)
    (solved : option Values → bool) :
  (solve elements map_to_list (Assign elements 40) 40 twice_grid = PyFalse ∧
   timeSolve elements map_to_list (Assign elements 40) matrix convertStringToMatrix
     solved 40 twice_grid = Aborted TypeError) ∧
  (∀ set_iter dict_items n fuel grid,
     (∀ X, set_iter X ≡ₚ elements X) →
     (∀ m, dict_items m ≡ₚ map_to_list m) →
     length (grid_chars grid) = 81 →
     (∀ sol, ¬ solution grid sol) →
     2 * 729 < fuel → 2 * 729 < n →
     timeSolve set_iter dict_items (Assign set_iter n) matrix convertStringToMatrix
       solved fuel grid = Aborted TypeError).
Proof.
  split.
  - split; [exact twice_grid_unsolved|].
    unfold timeSolve. by rewrite twice_grid_unsolved.
  - intros set_iter dict_items n fuel grid Hset Hitems Hlen Hnone Hfuel Hn.
    pose proof (solve_settles set_iter dict_items n fuel grid Hset Hitems Hlen
                  Hfuel Hn) as Hsettled.
    unfold timeSolve.
    destruct (solve _ _ _ _ _) as [values| | |] eqn:E; [|done..].
    destruct (Hnone values).
    eapply solve_sound; [done..| |done]. by apply Assign_shrinks.
Qed.

Lemma reviewUnit_dplaces set_iter assign fuel values square digit values2 :
  (∀ X, set_iter X ≡ₚ elements X) →
  assign_ok assign →
  CandidateMap values →
  square ∈ squares →
  digit ∈ cand values square →
  let values1 := <[square := str_remove digit (values !!! square)]> values in
  let result := eliminate set_iter assign (S fuel) values square digit in
  let step := reviewUnit_step assign digit in
  reviewNextDigit set_iter assign fuel values1 square = Dict values2 →
  (∀ pre unit post vk,
     units square = pre ++ unit :: post → chain step values2 pre vk →
     (dplaces vk digit unit = [] → result = PyFalse) ∧
     (∀ place, dplaces vk digit unit = [place] →
        (assign vk place digit = PyFalse → result = PyFalse) ∧
        (∀ vk', assign vk place digit = Dict vk' → result = all_ step vk' post)) ∧
     (2 ≤ length (dplaces vk digit unit) → result = all_ step vk post)) ∧
  (∀ unit, unit ∈ units square → dplaces values2 digit unit = [] →
     ∀ values', result ≠ Dict values') ∧
  (∀ values', result = Dict values' →
     ∀ unit, unit ∈ units square →
       dplaces values' digit unit ≠ [] ∧
       ∀ place, dplaces values2 digit unit = [place] → values' !!! place = str1 digit).
Proof.
  intros Hset Hassign Hmap Hsq Hin values1 result step Hpeers.
  assert (Hunfold : result = all_ step values2 (units square)).
  { subst result. rewrite eliminate_S, decide_True by done.
    fold values1. by rewrite Hpeers. }
  assert (Hstep : ∀ v unit v', step v unit = Dict v' → shrinks v v').
  { intros v unit v' H.
    by apply (reviewUnit_step_shrinks assign Hassign) in H as [? _]. }
  assert (Hchain : ∀ v l v', chain step v l v' → shrinks v v').
  { intros v l v'. apply chain_preorder; [apply _|]. intros ?? ? _. apply Hstep. }
  assert (Hmap2 : CandidateMap values2).
  { destruct (eliminate_reviewNextDigit_shrink set_iter assign Hset Hassign fuel)
      as [_ Hr].
    apply Hr in Hpeers as (Hdom & Hsub & _). destruct Hmap as [Hd Hc]. split.
    - rewrite Hdom. unfold values1. by rewrite removal_dom.
    - eapply Forall_impl; [exact Hc|]. intros p Hp. simpl in Hp.
      trans (cand values1 p); [done|]. trans (cand values p); [|done].
      apply removal_shrinks_cand. }
  split_and!.
  - intros pre unit post vk Hunits Hc.
    assert (Hk : result = bind (reviewUnit_step assign digit vk unit)
                               (λ v, all_ step v post)).
    { by rewrite Hunfold, Hunits, (all_app _ _ _ _ _ Hc). }
    rewrite Hk. unfold reviewUnit_step. split_and!.
    + by intros ->.
    + intros place ->. split; [by intros ->|]. by intros vk' ->.
    + intros Hlen. by destruct (dplaces vk digit unit) as [|? [|]]; simpl in *; try lia.
  - intros unit Hu Hnil values'. rewrite Hunfold. intros Hc%all_Dict.
    apply list_elem_of_split in Hu as (pre & post & Hu). rewrite Hu in Hc.
    apply chain_split in Hc as (vk & vk' & Hpre & Hk & _).
    apply (reviewUnit_step_shrinks assign Hassign) in Hk as [_ Hk]. apply Hk.
    pose proof (dplaces_shrinks _ _ digit unit (Hchain _ _ _ Hpre)) as Hsub.
    rewrite Hnil in Hsub. by apply sublist_nil_r in Hsub.
  - intros values' Hres unit Hu.
    assert (Hres' : reviewUnit assign values2 square digit = Dict values')
      by (by rewrite <- Hres, Hunfold).
    split; [by apply (reviewUnit_shrinks assign Hassign) in Hres' as [_ ?]; auto|].
    intros place Hplace. rewrite Hunfold in Hres. apply all_Dict in Hres.
    pose proof Hu as Hunit. apply list_elem_of_filter in Hunit as [_ Hunit].
    apply list_elem_of_split in Hu as (pre & post & Hu). rewrite Hu in Hres.
    apply chain_split in Hres as (vk & vk' & Hpre & Hk & Hpost).
    pose proof (dplaces_shrinks _ _ digit unit (Hchain _ _ _ Hpre)) as Hsub.
    rewrite Hplace in Hsub. pose proof Hk as Hk'.
    apply (reviewUnit_step_shrinks assign Hassign) in Hk' as [_ Hne].
    apply sublist_singleton in Hsub; [|done].
    unfold step, reviewUnit_step in Hk. rewrite Hsub in Hk.
    apply Hassign in Hk as [Hsh Honly].
    assert (place ∈ unit ∧ digit ∈ cand vk place) as [Hpu Hdp].
    { assert (place ∈ dplaces vk digit unit) as H by (rewrite Hsub; left).
      by apply list_elem_of_filter in H as [? ?]. }
    apply chars_singleton. change (cand values' place = [digit]).
    apply (shrinks_singleton vk'); [by eapply Hchain|].
    apply only_digit; [| |done].
    + apply (CandidateMap_NoDup vk').
      * apply (shrinks_CandidateMap values2); [|done].
        trans vk; [by eapply Hchain|done].
      * pose proof unitlist_shape as Hshape. rewrite Forall_forall in Hshape.
        destruct (Hshape unit Hunit) as (_ & _ & Hall).
        rewrite Forall_forall in Hall. by apply Hall.
    + apply Hsh. intros Hnil. rewrite Hnil in Hdp. by apply elem_of_nil in Hdp.
Qed.

(** The code's list [dplaces] in terms of the candidates of the squares of
    the unit. *)
Lemma dplaces_none v d unit :
  dplaces v d unit = [] ↔ ∀ s, s ∈ unit → d ∉ cand v s.
Proof.
  split.
  - intros Hnil s Hs Hd.
    assert (s ∈ dplaces v d unit) as Hin by by apply list_elem_of_filter.
    rewrite Hnil in Hin. by apply elem_of_nil in Hin.
  - intros Hall. destruct (dplaces v d unit) as [|x l] eqn:E; [done|].
    assert (x ∈ dplaces v d unit) as [Hd Hx]%list_elem_of_filter by (rewrite E; left).
    by destruct (Hall x Hx).
Qed.

Lemma dplaces_one v d unit place :
  NoDup unit → place ∈ unit → d ∈ cand v place →
  (∀ s, s ∈ unit → d ∈ cand v s → s = place) →
  dplaces v d unit = [place].
Proof.
  intros Hnd Hp Hd Honly. apply only_digit.
  - by apply NoDup_filter.
  - intros Hnil. by apply (proj1 (dplaces_none v d unit) Hnil place).
  - intros s [Hs Hin]%list_elem_of_filter. by apply Honly.
Qed.

Lemma dplaces_two v d unit p q :
  p ∈ unit → q ∈ unit → p ≠ q → d ∈ cand v p → d ∈ cand v q →
  2 ≤ length (dplaces v d unit).
Proof.
  intros Hp Hq Hne Hdp Hdq.
  assert (p ∈ dplaces v d unit) as Hp' by by apply list_elem_of_filter.
  assert (q ∈ dplaces v d unit) as Hq' by by apply list_elem_of_filter.
  destruct (dplaces v d unit) as [|x [|y l]]; simpl; [|exfalso|lia].
  - by apply elem_of_nil in Hp'.
  - apply list_elem_of_singleton in Hp', Hq'. congruence.
Qed.

Lemma units_NoDup square unit : unit ∈ units square → NoDup unit.
Proof.
  intros [_ Hu]%list_elem_of_filter.
  pose proof unitlist_shape as Hshape. rewrite Forall_forall in Hshape.
  by destruct (Hshape unit Hu) as (_ & ? & _).
Qed.

(** C3. Once [eliminate] has removed the digit from the square and the
    peers are dealt with, [reviewUnit] goes through the units of the square.
    When the digit is a candidate of no square of the unit, [eliminate]
    returns [False].  When it is a candidate of one square of the unit and of
    no other, the digit is assigned to that square: [False] from this
    assignment makes [eliminate] return [False], and otherwise the loop goes
    on from the map that the assignment returned.  When it is a candidate of
    two squares of the unit, the loop goes on with the map as it is.  So
    [eliminate] never returns a map when the digit has lost its last place in
    a unit of the square; and in the map it returns the digit is a candidate
    of some square of every unit of the square, and a square that was its only
    place in such a unit holds the digit alone. *)
Theorem reviewUnit_spec set_iter assign fuel values square digit values2 :
  (∀ X, set_iter X ≡ₚ elements X) →
  assign_ok assign →
  CandidateMap values →
  square ∈ squares →
  digit ∈ cand values square →
  let values1 := <[square := str_remove digit (values !!! square)]> values in
  let result := eliminate set_iter assign (S fuel) values square digit in
  let step := reviewUnit_step assign digit in
  reviewNextDigit set_iter assign fuel values1 square = Dict values2 →
  (∀ pre unit post vk,
     units square = pre ++ unit :: post → chain step values2 pre vk →
     ((∀ s, s ∈ unit → digit ∉ cand vk s) → result = PyFalse) ∧
     (∀ place,
        place ∈ unit → digit ∈ cand vk place →
        (∀ s, s ∈ unit → digit ∈ cand vk s → s = place) →
        (assign vk place digit = PyFalse → result = PyFalse) ∧
        (∀ vk', assign vk place digit = Dict vk' → result = all_ step vk' post)) ∧
     (∀ p q,
        p ∈ unit → q ∈ unit → p ≠ q → digit ∈ cand vk p → digit ∈ cand vk q →
        result = all_ step vk post)) ∧
  (∀ unit, unit ∈ units square → (∀ s, s ∈ unit → digit ∉ cand values2 s) →
     ∀ values', result ≠ Dict values') ∧
  (∀ values', result = Dict values' →
     ∀ unit, unit ∈ units square →
       (∃ s, s ∈ unit ∧ digit ∈ cand values' s) ∧
       ∀ place,
         place ∈ unit → digit ∈ cand values2 place →
         (∀ s, s ∈ unit → digit ∈ cand values2 s → s = place) →
         values' !!! place = str1 digit).
Proof.
  intros Hset Hassign Hmap Hsq Hin values1 result step Hpeers.
  destruct (reviewUnit_dplaces set_iter assign fuel values square digit values2
              Hset Hassign Hmap Hsq Hin Hpeers) as (Hloop & Hnone & Hmap').
  split_and!.
  - intros pre unit post vk Hunits Hchain.
    destruct (Hloop pre unit post vk Hunits Hchain) as (Hzero & Hone & Hmore).
    assert (NoDup unit) as Hnd.
    { apply (units_NoDup square). rewrite Hunits. apply elem_of_app. right. left. }
    split_and!.
    + intros Hall. by apply Hzero, dplaces_none.
    + intros place Hp Hd Honly. by apply Hone, dplaces_one.
    + intros p q Hp Hq Hne Hdp Hdq. by apply Hmore, (dplaces_two _ _ _ p q).
  - intros unit Hu Hall. by apply (Hnone unit Hu), dplaces_none.
  - intros values' Hres unit Hu.
    destruct (Hmap' values' Hres unit Hu) as [Hne Hplace]. split.
    + destruct (dplaces values' digit unit) as [|s l] eqn:E; [done|].
      assert (s ∈ dplaces values' digit unit) as [Hd Hs]%list_elem_of_filter
        by (rewrite E; left).
      by exists s.
    + intros place Hp Hd Honly. apply Hplace, dplaces_one; [|done..].
      by apply (units_NoDup square).
Qed.

Lemma CandidateMap_insert v s x :
  CandidateMap v → s ∈ squares → chars x `sublist_of` chars digits →
  CandidateMap (<[s:=x]> v).
Proof.
  intros [Hdom Hall] Hs Hx. split.
  - rewrite dom_insert_L, Hdom. apply subseteq_union_1_L, singleton_subseteq_l.
    by apply elem_of_list_to_set.
  - apply Forall_forall. intros q Hq. destruct (decide (q = s)) as [->|Hne].
    + by rewrite cand_insert_eq.
    + rewrite cand_insert_ne by done. rewrite Forall_forall in Hall. by apply Hall.
Qed.

Lemma without_five_CandidateMap l :
  Forall (λ s, s ∈ squares) l → CandidateMap (without_five l).
Proof.
  induction 1 as [|s l Hs _ IH]; [apply all_digits_CandidateMap|].
  apply CandidateMap_insert; [done..|].
  repeat first [apply sublist_skip | apply sublist_cons]. apply sublist_nil.
Qed.

Lemma no_place_peers :
  reviewNextDigit elements (Assign elements 9) 8
    (<["A1" := "12346789"]> no_place_map) "A1" =
  Dict (<["A1" := "12346789"]> no_place_map).
Proof. vm_cast_no_check (eq_refl (Dict (<["A1" := "12346789"]> no_place_map))). Qed.

Lemma no_place_column :
  reviewUnit_step (Assign elements 9) "5" (<["A1" := "12346789"]> no_place_map)
    (crossProduct rows "1") =
  Dict (<["A1" := "12346789"]> no_place_map).
Proof. vm_cast_no_check (eq_refl (Dict (<["A1" := "12346789"]> no_place_map))). Qed.

Lemma A1_units :
  units "A1" =
  [crossProduct rows "1"] ++ crossProduct "A" cols :: [crossProduct "ABC" "123"].
Proof. by vm_compute. Qed.

Lemma one_place_peers :
  reviewNextDigit elements (Assign elements 40) 39
    (<["A1" := "12346789"]> one_place_map) "A1" =
  Dict (<["A1" := "12346789"]> one_place_map).
Proof. vm_cast_no_check (eq_refl (Dict (<["A1" := "12346789"]> one_place_map))). Qed.

Lemma one_place_run :
  ∃ values', eliminate elements (Assign elements 40) 40 one_place_map "A1" "5" =
             Dict values'.
Proof.
  assert (match eliminate elements (Assign elements 40) 40 one_place_map "A1" "5" with
          | Dict _ => True
          | _ => False
          end) as Hrun by (vm_cast_no_check I).
  destruct (eliminate elements (Assign elements 40) 40 one_place_map "A1" "5")
    as [values'| | |]; [by exists values'|done..].
Qed.

Lemma reviewUnit_spec_witness :
  (CandidateMap no_place_map ∧ "A1" ∈ squares ∧ "5"%char ∈ cand no_place_map "A1" ∧
   crossProduct "A" cols ∈ units "A1" ∧
   (∀ s, s ∈ crossProduct "A" cols →
      "5"%char ∉ cand (<["A1" := "12346789"]> no_place_map) s) ∧
   eliminate elements (Assign elements 9) 9 no_place_map "A1" "5" = PyFalse) ∧
  (CandidateMap one_place_map ∧ "5"%char ∈ cand one_place_map "A1" ∧
   "5"%char ∈ cand (<["A1" := "12346789"]> one_place_map) "A2" ∧
   (∀ s, s ∈ crossProduct "A" cols →
      "5"%char ∈ cand (<["A1" := "12346789"]> one_place_map) s → s = "A2") ∧
   ∃ values',
     eliminate elements (Assign elements 40) 40 one_place_map "A1" "5" = Dict values' ∧
     values' !!! "A2" = "5" ∧
     (∃ s, s ∈ crossProduct "A" cols ∧ "5"%char ∈ cand values' s)).
Proof.
  assert (Hrow : crossProduct "A" cols ∈ units "A1") by by_evaluation.
  split.
  - assert (Hmap : CandidateMap no_place_map).
    { apply without_five_CandidateMap. by_evaluation. }
    assert (H5 : "5"%char ∈ cand no_place_map "A1") by by_evaluation.
    assert (Hnone : ∀ s, s ∈ crossProduct "A" cols →
              "5"%char ∉ cand (<["A1" := "12346789"]> no_place_map) s).
    { apply Forall_forall. by_evaluation. }
    split; [exact Hmap|]. split; [exact A1_square|]. split; [exact H5|].
    split; [exact Hrow|]. split; [exact Hnone|].
    refine (proj1 (proj1 (reviewUnit_spec elements (Assign elements 9) 8
      no_place_map "A1" "5" (<["A1" := "12346789"]> no_place_map)
      elements_perm (Assign_shrinks elements 9 elements_perm)
      Hmap A1_square H5 no_place_peers) [crossProduct rows "1"]
      (crossProduct "A" cols) [crossProduct "ABC" "123"]
      (<["A1" := "12346789"]> no_place_map) A1_units _) Hnone).
    eapply chain_cons; [exact no_place_column|apply chain_nil].
  - assert (Hmap : CandidateMap one_place_map).
    { apply without_five_CandidateMap. by_evaluation. }
    assert (H5 : "5"%char ∈ cand one_place_map "A1") by by_evaluation.
    assert (Hplace : "5"%char ∈ cand (<["A1" := "12346789"]> one_place_map) "A2")
      by by_evaluation.
    assert (HA2 : "A2" ∈ crossProduct "A" cols) by by_evaluation.
    assert (Honly : ∀ s, s ∈ crossProduct "A" cols →
              "5"%char ∈ cand (<["A1" := "12346789"]> one_place_map) s → s = "A2").
    { apply (Forall_forall (λ s,
        "5"%char ∈ cand (<["A1" := "12346789"]> one_place_map) s → s = "A2")).
      by_evaluation. }
    split; [exact Hmap|]. split; [exact H5|]. split; [exact Hplace|].
    split; [exact Honly|].
    destruct one_place_run as [values' Hrun]. exists values'.
    destruct (proj2 (proj2 (reviewUnit_spec elements (Assign elements 40) 39
      one_place_map "A1" "5" (<["A1" := "12346789"]> one_place_map)
      elements_perm (Assign_shrinks elements 40 elements_perm)
      Hmap A1_square H5 one_place_peers)) values' Hrun (crossProduct "A" cols) Hrow)
      as [Hsome Hlone].
    split; [exact Hrun|]. split; [|exact Hsome].
    exact (Hlone "A2" HA2 Hplace Honly).
Defined.

(** C4, amended.  [parseGrid] fails on the assertion of [getGridValues]
    exactly when the characters of the grid that are digits, 0 or a dot are
    not 81 in number; the other characters are left out. *)
Theorem parseGrid_assertion set_iter dict_items n fuel grid :
  parseGrid set_iter dict_items (Assign set_iter n) fuel grid = Raised AssertionError ↔
  length (grid_chars grid) ≠ 81.
Proof.
  unfold parseGrid, getGridValues. case_decide as Hlen; [|done].
  split; [|done]. intros H. exfalso. revert H.
  apply all_no_exception. intros v1 item. unfold parseGrid_step.
  case_decide; [|done].
  apply assignPosibleValues_no_exception. intros. apply Assign_no_exception.
Qed.

(** C4 as stated fails on a grid of 81 blanks and two spaces: it is longer
    than 81 and holds a character that is neither a digit nor a blank, and it
    is parsed. *)
Lemma parseGrid_assertion_counterexample :
  String.length long_grid ≠ 81 ∧
  (∃ c, c ∈ chars long_grid ∧ (c ∉ chars digits) ∧ (c ∉ chars "0.")) ∧
  parseGrid elements map_to_list (Assign elements 1) 1 long_grid = Dict all_digits.
Proof.
  split_and!.
  - by vm_compute.
  - exists " "%char. split_and!; by_evaluation.
  - vm_cast_no_check (eq_refl (Dict all_digits)).
Qed.

(** C5. On a map that has a square with two candidates or more,
    [deepSearch] picks, among such squares, one with the fewest candidates,
    the first by name among equals.  It tries the candidates of that square
    in their order in the string: each is assigned to the square in the map
    as it was handed in, and the search goes on from the result, which ends
    it at once when the assignment returned [False] (with [False]) or a map
    whose squares are all determined (with that map).  The first trial that
    returns a map gives the result; [False] is returned exactly when every
    trial returns [False].  A map that is returned comes from the map handed
    in by eliminations alone, all its squares are determined, and the square
    that was picked holds one of its candidates; and [False] is not returned
    on a candidate map that has a solution among its candidates. *)
Theorem deepSearch_spec assign fuel values :
  has_squares values →
  (∃ s, s ∈ squares ∧ 2 ≤ length (cand values s)) →
  ∃ square,
    square ∈ squares ∧ 2 ≤ length (cand values square) ∧
    (∀ s, s ∈ squares → 2 ≤ length (cand values s) →
       tuple_le (length (cand values square), square) (length (cand values s), s)) ∧
    let result := deepSearch assign (S (S fuel)) (Dict values) in
    let try := λ digit, deepSearch assign (S fuel) (assign values square digit) in
    (∀ values', result = Dict values' ↔
       ∃ pre digit post,
         cand values square = pre ++ digit :: post ∧
         (∀ c, c ∈ pre → try c = PyFalse) ∧ try digit = Dict values') ∧
    (result = PyFalse ↔ ∀ c, c ∈ cand values square → try c = PyFalse) ∧
    (∀ c, assign values square c = PyFalse → try c = PyFalse) ∧
    (∀ c values1,
       assign values square c = Dict values1 →
       Forall (λ s, length (cand values1 s) = 1) squares →
       try c = Dict values1) ∧
    (assign_ok assign →
     ∀ values', result = Dict values' →
       shrinks values values' ∧
       Forall (λ s, length (cand values' s) = 1) squares ∧
       ∃ digit, digit ∈ cand values square ∧ values' !!! square = str1 digit) ∧
    (assign_ok assign → CandidateMap values →
     ∀ sol, solved_map sol → assign_complete sol assign → fits sol values →
       result ≠ PyFalse).
Proof.
  intros _ (s0 & Hs0 & Hlen0).
  assert (unfilled values ≠ []) as Hne.
  { intros Hnil.
    assert ((length (cand values s0), s0) ∈ unfilled values) as Hin
      by by apply elem_of_unfilled.
    rewrite Hnil in Hin. by apply elem_of_nil in Hin. }
  apply py_min_least in Hne as ([n square] & Hmin & Hin & Hleast).
  apply elem_of_unfilled in Hin as (Hsq & -> & Hlen).
  exists square. split_and!; [done..| |].
  { intros s Hs Hl. apply Hleast. by apply elem_of_unfilled. }
  intros result try.
  assert (Hres : result = validValues try (cand values square)).
  { subst result. cbn [deepSearch]. rewrite decide_False, Hmin; [done|].
    rewrite Forall_forall. intros Hall. specialize (Hall s0 Hs0).
    unfold cand in Hlen0. lia. }
  split_and!.
  - intros values'. rewrite Hres. apply validValues_Dict.
  - rewrite Hres. apply validValues_PyFalse.
  - intros c Hc. unfold try. by rewrite Hc.
  - intros c values1 Hc Hall. unfold try. rewrite Hc. cbn [deepSearch].
    by rewrite decide_True.
  - intros Hok values' Hrun.
    apply (deepSearch_shrinks assign Hok) in Hrun as (v & [= <-] & Hsh & Hone).
    split_and!; [done..|].
    rewrite Forall_forall in Hone. specialize (Hone square Hsq).
    destruct (cand values' square) as [|digit [|]] eqn:E; [done| |done].
    exists digit. split; [|by apply chars_singleton].
    eapply elem_of_sublist; [|apply (shrinks_sub _ _ Hsh square)]. rewrite E. left.
  - intros Hok Hmap sol Hsol Hfits Hfit.
    by apply (deepSearch_complete assign sol Hok Hsol Hfits).
Qed.

Lemma open_map_square s : s ∈ squares → 2 ≤ length (cand open_map s) → s = "A1".
Proof.
  revert s. apply (Forall_forall (λ s, 2 ≤ length (cand open_map s) → s = "A1")).
  by_evaluation.
Qed.

Lemma open_map_three :
  deepSearch (Assign elements 9) 8 (Assign elements 9 open_map "A1" "3") = PyFalse.
Proof. vm_cast_no_check (eq_refl PyFalse). Qed.

Lemma open_map_four :
  deepSearch (Assign elements 9) 8 (Assign elements 9 open_map "A1" "4") =
  Dict easy_solution.
Proof. vm_cast_no_check (eq_refl (Dict easy_solution)). Qed.

Lemma deepSearch_spec_witness :
  has_squares open_map ∧
  (∃ s, s ∈ squares ∧ 2 ≤ length (cand open_map s)) ∧
  cand open_map "A1" = ["3"%char; "4"%char] ∧
  deepSearch (Assign elements 9) 8 (Assign elements 9 open_map "A1" "3") = PyFalse ∧
  deepSearch (Assign elements 9) 8 (Assign elements 9 open_map "A1" "4") =
    Dict easy_solution ∧
  deepSearch (Assign elements 9) 9 (Dict open_map) = Dict easy_solution.
Proof.
  assert (Hkeys : has_squares open_map) by by_evaluation.
  assert (Hcand : cand open_map "A1" = ["3"%char; "4"%char]) by by vm_compute.
  assert (Hopen : ∃ s, s ∈ squares ∧ 2 ≤ length (cand open_map s)).
  { exists "A1". split; [exact A1_square|]. rewrite Hcand. simpl. lia. }
  split; [exact Hkeys|]. split; [exact Hopen|]. split; [exact Hcand|].
  split; [exact open_map_three|]. split; [exact open_map_four|].
  destruct (deepSearch_spec (Assign elements 9) 7 open_map Hkeys Hopen)
    as (square & Hsq & Hlen & _ & Hsearch).
  assert (square = "A1") as -> by exact (open_map_square square Hsq Hlen).
  cbv zeta in Hsearch. destruct Hsearch as (Hfirst & _).
  apply Hfirst. exists ["3"%char], "4"%char, []. split; [exact Hcand|].
  split; [|exact open_map_four].
  intros c Hc. apply list_elem_of_singleton in Hc as ->. exact open_map_three.
Defined.

(** C6. [eliminate] leaves the map alone when the digit is no candidate of
    the square.  Otherwise it removes the digit; when nothing is left it
    returns [False]; when one digit [d] is left it eliminates [d] from the
    peers of the square one after the other, a [False] among these
    eliminations makes it return [False], and the map it returns holds [d]
    in no peer.  The map it returns has only shrunk and no longer holds the
    digit in the square. *)
Theorem eliminate_spec set_iter assign fuel values square digit :
  (∀ X, set_iter X ≡ₚ elements X) →
  assign_ok assign →
  has_squares values →
  square ∈ squares →
  let result := eliminate set_iter assign (S (S fuel)) values square digit in
  let values1 := <[square := str_remove digit (values !!! square)]> values in
  (digit ∉ cand values square → result = Dict values) ∧
  (digit ∈ cand values square →
     cand values1 square = filter (λ c, c ≠ digit) (cand values square) ∧
     (∀ p, p ≠ square → cand values1 p = cand values p) ∧
     (cand values1 square = [] → result = PyFalse) ∧
     (∀ d, cand values1 square = [d] →
        let step := λ values p, eliminate set_iter assign fuel values p d in
        (∀ values2, chain step values1 (set_iter (peers square)) values2 →
           result = reviewUnit assign values2 square digit) ∧
        (∀ pre p post vk, set_iter (peers square) = pre ++ p :: post →
           chain step values1 pre vk → step vk p = PyFalse → result = PyFalse) ∧
        (∀ values', result = Dict values' →
           ∀ p, p ∈ peers square → d ∉ cand values' p)) ∧
     (2 ≤ length (cand values1 square) →
        result = reviewUnit assign values1 square digit)) ∧
  (∀ values', result = Dict values' →
     shrinks values values' ∧ digit ∉ cand values' square).
Proof.
  intros Hset Hassign _ _ result values1.
  assert (Hunfold : digit ∈ cand values square →
    result = bind (reviewNextDigit set_iter assign (S fuel) values1 square)
                  (λ values, reviewUnit assign values square digit)).
  { intros Hin. subst result. by rewrite eliminate_S, decide_True. }
  split_and!.
  - intros Hout. subst result. by rewrite eliminate_S, decide_False.
  - intros Hin. specialize (Hunfold Hin).
    assert (H1 : cand values1 square = filter (λ c, c ≠ digit) (cand values square)).
    { unfold values1. by rewrite cand_insert_eq, chars_str_remove. }
    split_and!; [done| | | |].
    + intros p Hp. unfold values1. by rewrite cand_insert_ne.
    + intros Hnil. by rewrite Hunfold, reviewNextDigit_S, Hnil.
    + intros d Hd step.
      assert (Hr : reviewNextDigit set_iter assign (S fuel) values1 square =
                   all_ step values1 (set_iter (peers square))).
      { by rewrite reviewNextDigit_S, Hd. }
      split_and!.
      * intros values2 Hc%all_Dict. by rewrite Hunfold, Hr, Hc.
      * intros pre p post vk Hpeers Hc Hp. rewrite Hunfold, Hr.
        assert (all_ step values1 (set_iter (peers square)) = PyFalse) as ->; [|done].
        apply all_stops; [done|]. by exists pre, p, post, vk.
      * intros values' Hres p Hp. rewrite Hunfold in Hres.
        destruct (reviewNextDigit set_iter assign (S fuel) values1 square)
          as [values2| | |] eqn:E2; try done.
        simpl in Hres.
        apply (reviewUnit_shrinks assign Hassign) in Hres as [Hsh _].
        apply (eliminate_reviewNextDigit_shrink set_iter assign Hset Hassign) in E2
          as (_ & Hsub & Hne & _ & _ & Hgood & _).
        eapply shrinks_not_elem; [done|]. apply (Hgood d); [|done].
        apply sublist_singleton; [rewrite <- Hd; apply Hsub|].
        apply Hne. by rewrite Hd.
    + intros Hlen. rewrite Hunfold, reviewNextDigit_S.
      by destruct (cand values1 square) as [|? [|]]; simpl in *; try lia.
  - intros values'.
    apply (eliminate_shrinks set_iter assign Hset Hassign).
Qed.

Lemma eliminate_spec_witness :
  has_squares all_digits ∧ "A1" ∈ squares ∧
  ∀ values',
    eliminate elements (Assign elements 9) 9 all_digits "A1" "5" = Dict values' →
    shrinks all_digits values' ∧ ("5"%char ∉ cand values' "A1").
Proof.
  split; [exact all_digits_has_squares|]. split; [exact A1_square|].
  exact (proj2 (proj2 (eliminate_spec elements (Assign elements 9) 7
    all_digits "A1" "5" elements_perm (Assign_shrinks elements 9 elements_perm)
    all_digits_has_squares A1_square))).
Defined.

(** C7. [assignPosibleValues] eliminates from the square, one after the
    other, the candidates that differ from the digit.  It returns the map
    exactly when every one of these eliminations returned the map, and
    [False] exactly when one of them returned [False]; the map it returns
    has only shrunk and holds no other candidate than the digit in the
    square. *)
Theorem assignPosibleValues_spec set_iter assign fuel values square digit :
  (∀ X, set_iter X ≡ₚ elements X) →
  assign_ok assign →
  has_squares values →
  square ∈ squares →
  let result := assignPosibleValues set_iter assign fuel values square digit in
  let others := filter (λ c, c ≠ digit) (cand values square) in
  let step := λ values c, eliminate set_iter assign fuel values square c in
  (∀ values', result = Dict values' ↔ chain step values others values') ∧
  (result = PyFalse ↔
     ∃ pre c post vk,
       others = pre ++ c :: post ∧ chain step values pre vk ∧ step vk c = PyFalse) ∧
  (∀ values', result = Dict values' →
     shrinks values values' ∧ ∀ c, c ∈ cand values' square → c = digit).
Proof.
  intros Hset Hassign _ _ result others step. subst result others step.
  unfold assignPosibleValues. rewrite chars_str_remove. fold (cand values square).
  split_and!.
  - intros values'. apply all_Dict.
  - by apply all_stops.
  - intros values' H.
    apply (assignPosibleValues_shrinks set_iter assign Hset Hassign fuel).
    unfold assignPosibleValues. by rewrite chars_str_remove.
Qed.

Lemma assignPosibleValues_spec_witness :
  has_squares all_digits ∧ "A1" ∈ squares ∧
  ∀ values',
    assignPosibleValues elements (Assign elements 9) 9 all_digits "A1" "5" =
      Dict values' →
    shrinks all_digits values' ∧ ∀ c, c ∈ cand values' "A1" → c = "5"%char.
Proof.
  split; [exact all_digits_has_squares|]. split; [exact A1_square|].
  exact (proj2 (proj2 (assignPosibleValues_spec elements (Assign elements 9) 9
    all_digits "A1" "5" elements_perm (Assign_shrinks elements 9 elements_perm)
    all_digits_has_squares A1_square))).
Defined.

(** C8. In the board built by the constructor there are 81 squares, and the
    peers of each of them are 20 squares, the square itself not among them. *)
Theorem peers_invariant square :
  square ∈ squares →
  length squares = 81 ∧ size (peers square) = 20 ∧ square ∉ peers square.
Proof.
  revert square. apply Forall_forall. by_evaluation.
Qed.

Lemma peers_invariant_witness :
  length squares = 81 ∧ size (peers "E5") = 20 ∧ "E5" ∉ peers "E5".
Proof. apply (peers_invariant "E5"). by_evaluation. Defined.

(** C9. On a grid that has one solution and no other, [solve] returns that
    solution in whatever order sets and dicts are traversed, given fuel for
    all the eliminations; so two runs return the same digits.  The only
    inputs of [solve] are the grid and these two orders: nothing is drawn at
    random.  The maps the search works on are candidate maps, in which the
    candidates of a square are in ascending order; this is the order in
    which [deepSearch] tries them. *)
Theorem solve_deterministic set_iter1 dict_items1 n1 fuel1
    set_iter2 dict_items2 n2 fuel2 grid sol :
  (∀ X, set_iter1 X ≡ₚ elements X) → (∀ m, dict_items1 m ≡ₚ map_to_list m) →
  (∀ X, set_iter2 X ≡ₚ elements X) → (∀ m, dict_items2 m ≡ₚ map_to_list m) →
  length (grid_chars grid) = 81 →
  solution grid sol →
  (∀ sol', solution grid sol' → sol' = sol) →
  2 * 729 < fuel1 → 2 * 729 < n1 → 2 * 729 < fuel2 → 2 * 729 < n2 →
  let run1 := solve set_iter1 dict_items1 (Assign set_iter1 n1) fuel1 grid in
  let run2 := solve set_iter2 dict_items2 (Assign set_iter2 n2) fuel2 grid in
  run1 = Dict sol ∧ run2 = Dict sol ∧
  (∀ v, parseGrid set_iter1 dict_items1 (Assign set_iter1 n1) fuel1 grid = Dict v →
     CandidateMap v) ∧
  (∀ v s d v', CandidateMap v → Assign set_iter1 n1 v s d = Dict v' →
     CandidateMap v') ∧
  (∀ v s, CandidateMap v → s ∈ squares → StronglySorted digit_lt (cand v s)).
Proof.
  intros Hset1 Hitems1 Hset2 Hitems2 Hlen Hsol Hunique Hf1 Hn1 Hf2 Hn2 run1 run2.
  split_and!.
  - destruct (solve_finds set_iter1 dict_items1 n1 fuel1 grid sol)
      as (v & Hv & Hsolv); [done..|].
    subst run1. rewrite Hv. f_equal. by apply Hunique.
  - destruct (solve_finds set_iter2 dict_items2 n2 fuel2 grid sol)
      as (v & Hv & Hsolv); [done..|].
    subst run2. rewrite Hv. f_equal. by apply Hunique.
  - intros v Hv.
    apply (parseGrid_shrinks _ _ _ Hset1 Hitems1 (Assign_shrinks _ n1 Hset1))
      in Hv as [Hsh _].
    eapply shrinks_CandidateMap; [done|]. apply all_digits_CandidateMap.
  - intros v s d v' Hmap Hv'.
    apply (Assign_shrinks _ n1 Hset1) in Hv' as [Hsh _].
    by eapply shrinks_CandidateMap.
  - intros v s [_ Hc] Hs. rewrite Forall_forall in Hc.
    eapply sublist_StronglySorted; [by apply Hc|]. apply digits_ascending.
Qed.

Lemma solve_deterministic_witness :
  solve elements map_to_list (Assign elements 1500) 1500 easy_grid =
    Dict easy_solution ∧
  solve (reverse ∘ elements) (reverse ∘ map_to_list)
    (Assign (reverse ∘ elements) 1600) 1600 easy_grid = Dict easy_solution.
Proof.
  assert (Hsol : solution easy_grid easy_solution).
  { exact (solve_sound elements map_to_list (Assign elements 60) 60 easy_grid
             easy_solution elements_perm map_to_list_perm
             (Assign_shrinks elements 60 elements_perm) easy_grid_solved). }
  destruct (solve_deterministic elements map_to_list 1500 1500
              (reverse ∘ elements) (reverse ∘ map_to_list) 1600 1600
              easy_grid easy_solution) as (H1 & H2 & _).
  - exact elements_perm.
  - exact map_to_list_perm.
  - intros X. apply reverse_Permutation.
  - intros m. apply reverse_Permutation.
  - by vm_compute.
  - exact Hsol.
  - intros sol' Hsol'.
    exact (parseGrid_unique elements map_to_list 60 60 easy_grid easy_solution sol'
             elements_perm map_to_list_perm easy_grid_parsed (proj1 Hsol) Hsol').
  - lia.
  - lia.
  - lia.
  - lia.
  - exact (conj H1 H2).
Defined.

(** C10. In the maps the solver works on no square is without a candidate:
    the board starts with nine in each, and a call that empties a square
    returns [False], after which its caller gives the map up.  On such a
    square, when the digit is not among the candidates, [assignPosibleValues]
    returns [False], given fuel for the eliminations: a map it returned would
    hold no other candidate than the digit in the square, and none of the
    candidates the square had. *)
Theorem assign_absent_digit set_iter n fuel values square digit :
  (∀ X, set_iter X ≡ₚ elements X) →
  has_squares values →
  square ∈ squares →
  cand values square ≠ [] →
  digit ∉ cand values square →
  2 * weight values < fuel →
  2 * weight values < n →
  assignPosibleValues set_iter (Assign set_iter n) fuel values square digit = PyFalse.
Proof.
  intros Hperm _ _ Hne Hd Hfuel Hn.
  pose proof (assignPosibleValues_Assign_settles set_iter n fuel values square digit
                Hperm Hfuel Hn) as Hsettled.
  destruct (assignPosibleValues set_iter (Assign set_iter n) fuel values square digit)
    as [values'| | |] eqn:E; try done.
  exfalso.
  apply (assignPosibleValues_shrinks set_iter _ Hperm (Assign_shrinks _ n Hperm))
    in E as [Hsh Honly].
  apply (shrinks_nonempty _ _ Hsh) in Hne.
  destruct (cand values' square) as [|c l] eqn:Hc; [done|].
  apply Hd. rewrite <- (Honly c) by left.
  eapply elem_of_sublist; [|apply Hsh]. rewrite Hc. left.
Qed.

Lemma easy_solution_weight : weight easy_solution = 81.
Proof. by vm_compute. Qed.

Lemma assign_absent_digit_witness :
  has_squares easy_solution ∧ "A1" ∈ squares ∧ cand easy_solution "A1" ≠ [] ∧
  ("3"%char ∉ cand easy_solution "A1") ∧
  assignPosibleValues elements (Assign elements 200) 200 easy_solution "A1" "3" =
    PyFalse.
Proof.
  assert (Hkeys : has_squares easy_solution) by by_evaluation.
  assert (Hne : cand easy_solution "A1" ≠ []) by by vm_compute.
  assert (Hout : "3"%char ∉ cand easy_solution "A1") by by_evaluation.
  split; [exact Hkeys|]. split; [exact A1_square|]. split; [exact Hne|].
  split; [exact Hout|].
  apply (assign_absent_digit elements 200 200 easy_solution "A1" "3" elements_perm
           Hkeys A1_square Hne Hout); rewrite easy_solution_weight; lia.
Defined.

(** * Further properties of the code *)

(** ** The board *)

(** X1. [crossProduct] lists each row character with each column character,
    rows first: as many strings as there are pairs, a string belongs to it
    exactly when it is a character of [Rows] followed by a character of
    [Cols], nothing comes twice when no character does, and it is empty when
    [Rows] or [Cols] is. *)
Theorem crossProduct_pairs Rows Cols :
  length (crossProduct Rows Cols) = length (chars Rows) * length (chars Cols) ∧
  (∀ x, x ∈ crossProduct Rows Cols ↔
     ∃ row col, x = String row (str1 col) ∧ row ∈ chars Rows ∧ col ∈ chars Cols) ∧
  (NoDup (chars Rows) → NoDup (chars Cols) → NoDup (crossProduct Rows Cols)) ∧
  crossProduct "" Cols = [] ∧ crossProduct Rows "" = [].
Proof.
  unfold crossProduct. split_and!.
  - induction (chars Rows) as [|row l IH]; [done|].
    rewrite bind_cons, length_app, IH. simpl. f_equal.
    clear IH. induction (chars Cols) as [|col k IHk]; [done|].
    rewrite bind_cons. simpl. by f_equal.
  - intros x. rewrite list_elem_of_bind. split.
    + intros (row & (col & Hx & Hcol)%list_elem_of_bind & Hrow).
      apply list_elem_of_singleton in Hx. by exists row, col.
    + intros (row & col & -> & Hrow & Hcol). exists row. split; [|done].
      apply list_elem_of_bind. exists col. split; [|done]. by left.
  - intros Hrows Hcols. apply NoDup_bind; [| |done].
    + intros r1 r2 x _ _ (c1 & H1 & _)%list_elem_of_bind (c2 & H2 & _)%list_elem_of_bind.
      apply list_elem_of_singleton in H1, H2. congruence.
    + intros row _. apply NoDup_bind; [| |done].
      * intros c1 c2 x _ _ H1%list_elem_of_singleton H2%list_elem_of_singleton.
        unfold str1 in *. congruence.
      * intros. apply NoDup_singleton.
  - done.
  - induction (chars Rows) as [|row l IH]; [done|]. by rewrite bind_cons, IH.
Qed.

(** X2. The board of the constructor: 27 units, each of 9 different squares
    of the board, and every square lies in 3 of them, one column, one row and
    one box, in this order. *)
Theorem units_shape :
  length unitlist = 27 ∧
  Forall (λ unit, length unit = 9 ∧ NoDup unit ∧ Forall (λ s, s ∈ squares) unit)
    unitlist ∧
  Forall (λ s, ∃ col row box,
            units s = [col; row; box] ∧
            col ∈ take 9 unitlist ∧ row ∈ take 9 (drop 9 unitlist) ∧
            box ∈ drop 18 unitlist) squares.
Proof.
  split; [done|]. split; [apply unitlist_shape|].
  apply Forall_forall. intros s Hs.
  assert (length (units s) = 3 ∧
          default [] (units s !! 0) ∈ take 9 unitlist ∧
          default [] (units s !! 1) ∈ take 9 (drop 9 unitlist) ∧
          default [] (units s !! 2) ∈ drop 18 unitlist) as (Hlen & H0 & H1 & H2).
  { revert s Hs. apply Forall_forall. by_evaluation. }
  destruct (units s) as [|col [|row [|box [|]]]]; try done.
  by exists col, row, box.
Qed.

(** X3. Two squares are peers exactly when they differ and share a unit; so
    being a peer goes both ways, and the peers of a square of the board are
    squares of the board. *)
Theorem peers_share_unit s p :
  (p ∈ peers s ↔ p ≠ s ∧ ∃ unit, unit ∈ unitlist ∧ s ∈ unit ∧ p ∈ unit) ∧
  (p ∈ peers s → s ∈ peers p) ∧
  (p ∈ peers s → p ∈ squares ∧ s ∈ squares).
Proof.
  assert (Hiff : ∀ a b,
    b ∈ peers a ↔ b ≠ a ∧ ∃ unit, unit ∈ unitlist ∧ a ∈ unit ∧ b ∈ unit).
  { intros a b. unfold peers, units.
    rewrite elem_of_difference, elem_of_list_to_set, list_elem_of_join,
      elem_of_singleton.
    split.
    - intros [(unit & Hb & [Ha Hu]%list_elem_of_filter) Hne]. split; [done|].
      by exists unit.
    - intros [Hne (unit & Hu & Ha & Hb)]. split; [|done]. exists unit.
      split; [done|]. by apply list_elem_of_filter. }
  split_and!.
  - apply Hiff.
  - rewrite !Hiff. intros [Hne (unit & Hu & Hs & Hp)]. split; [done|]. by exists unit.
  - rewrite Hiff. intros [_ (unit & Hu & Hs & Hp)].
    pose proof unitlist_shape as Hshape. rewrite Forall_forall in Hshape.
    destruct (Hshape unit Hu) as (_ & _ & Hall). rewrite Forall_forall in Hall. auto.
Qed.

(** ** Parsing *)

(** X4. [getGridValues] keeps the digits, zeros and dots of the grid, in
    their order, and drops every other character.  With 81 of them it gives a
    dict whose keys are the 81 squares, the square at position [i] holding the
    [i]-th character kept; otherwise the assertion fails. *)
Theorem getGridValues_dict grid :
  grid_chars grid `sublist_of` chars grid ∧
  Forall (λ c, c ∈ chars digits ∨ c ∈ chars "0.") (grid_chars grid) ∧
  (getGridValues grid = None ↔ length (grid_chars grid) ≠ 81) ∧
  (∀ given, getGridValues grid = Some given →
     dom given = list_to_set squares ∧
     ∀ i s, squares !! i = Some s → given !! s = grid_chars grid !! i).
Proof.
  split_and!.
  - apply sublist_filter.
  - apply Forall_forall. intros c Hc. by apply list_elem_of_filter in Hc as [? _].
  - unfold getGridValues. by case_decide.
  - unfold getGridValues. intros given. case_decide as Hlen; [|done]. intros [= <-].
    assert (Hfst : (zip squares (grid_chars grid)).*1 = squares).
    { apply fst_zip. rewrite Hlen. by vm_compute. }
    split.
    + rewrite dom_list_to_map_L. f_equal. exact Hfst.
    + intros i s Hs.
      assert (is_Some (grid_chars grid !! i)) as [c Hc].
      { apply lookup_lt_is_Some. rewrite Hlen. apply lookup_lt_Some in Hs.
        revert Hs. by vm_compute. }
      rewrite Hc.
      apply (elem_of_list_to_map_1 (zip squares (grid_chars grid)) s c).
      * rewrite Hfst. apply squares_NoDup.
      * apply list_elem_of_lookup. exists i. by apply lookup_zip_Some.
Qed.

Lemma all_unchanged {A} (f : Values → A → outcome) v l :
  Forall (λ x, f v x = Dict v) l → all_ f v l = Dict v.
Proof. induction 1 as [|x l Hx _ IH]; simpl; [done|]. by rewrite Hx. Qed.

(** X5. A grid of 81 zeros and dots, whatever other characters it holds, is
    parsed into the map in which every square has the nine digits: no
    elimination takes place. *)
Theorem parseGrid_blank set_iter dict_items assign fuel grid :
  (∀ m, dict_items m ≡ₚ map_to_list m) →
  length (grid_chars grid) = 81 →
  Forall (λ c, c ∉ chars digits) (grid_chars grid) →
  parseGrid set_iter dict_items assign fuel grid = Dict all_digits.
Proof.
  intros Hitems Hlen Hblank. unfold parseGrid.
  destruct (getGridValues grid) as [given|] eqn:Hg.
  - apply getGridValues_Some in Hg as [_ Hg]. apply all_unchanged.
    apply Forall_forall. intros [s c] Hin. unfold parseGrid_step. cbn [fst snd].
    rewrite decide_False; [done|].
    rewrite Hitems, Hg in Hin. apply elem_of_zip_r in Hin.
    rewrite Forall_forall in Hblank. by apply Hblank.
  - unfold getGridValues in Hg. by rewrite decide_True in Hg.
Qed.

Lemma parseGrid_blank_witness :
  length (grid_chars long_grid) = 81 ∧
  parseGrid elements map_to_list (Assign elements 0) 0 long_grid = Dict all_digits.
Proof.
  assert (Hlen : length (grid_chars long_grid) = 81) by by vm_compute.
  split; [exact Hlen|].
  apply (parseGrid_blank elements map_to_list (Assign elements 0) 0 long_grid
           map_to_list_perm Hlen).
  by_evaluation.
Defined.




(** ** Propagation *)

(** X7. Take a candidate map (its keys are the squares, the candidates of a
    square are different digits) and a square that, if it holds the digit
    alone already, has it in none of its peers; this is so in every map that
    [parseGrid], an assignment or the search returns, and whenever the square
    has two candidates or more.  When [assignPosibleValues] returns the map
    for a digit that was a candidate of the square, the square holds that
    digit alone and none of its peers has it as a candidate.  On a square
    that held the digit alone nothing is eliminated and the map is returned
    as it is, so the condition on the peers cannot be left out. *)
Theorem assignPosibleValues_determines set_iter assign fuel values square digit
    values' :
  (∀ X, set_iter X ≡ₚ elements X) →
  assign_ok assign →
  CandidateMap values →
  (cand values square = [digit] → ∀ p, p ∈ peers square → digit ∉ cand values p) →
  digit ∈ cand values square →
  assignPosibleValues set_iter assign fuel values square digit = Dict values' →
  CandidateMap values' ∧
  values' !!! square = str1 digit ∧
  (∀ p, p ∈ peers square → digit ∉ cand values' p) ∧
  (cand values square = [digit] → values' = values).
Proof.
  intros Hset Hassign Hmap Hpeers Hin Hres.
  assert (Hgood : good values square).
  { intros d Hd. rewrite Hd in Hin. apply list_elem_of_singleton in Hin as ->.
    by apply Hpeers. }
  assert (Hsame : cand values square = [digit] → values' = values).
  { intros Hone. revert Hres. unfold assignPosibleValues.
    rewrite chars_str_remove. fold (cand values square). rewrite Hone.
    rewrite filter_cons_False, filter_nil by (by intros []). by intros [= <-]. }
  apply (assignPosibleValues_shrinks set_iter assign Hset Hassign) in Hres
    as [Hsh Honly].
  assert (Hmap' : CandidateMap values') by by eapply shrinks_CandidateMap.
  assert (Hsq : square ∈ squares).
  { apply (CandidateMap_square values); [done|]. intros Hnil. rewrite Hnil in Hin.
    by apply elem_of_nil in Hin. }
  assert (Hone : cand values' square = [digit]).
  { apply only_digit; [by apply CandidateMap_NoDup| |done].
    apply Hsh. intros Hnil. rewrite Hnil in Hin. by apply elem_of_nil in Hin. }
  split_and!; [done|by apply chars_singleton| |done].
  intros p Hp. by apply (shrinks_good _ _ Hsh square Hgood digit).
Qed.

Lemma blank_assigned :
  ∃ values',
    assignPosibleValues elements (Assign elements 9) 9 all_digits "A1" "5" =
      Dict values'.
Proof.
  assert (match assignPosibleValues elements (Assign elements 9) 9 all_digits
                  "A1" "5" with
          | Dict _ => True
          | _ => False
          end) as Hrun by (vm_cast_no_check I).
  destruct (assignPosibleValues elements (Assign elements 9) 9 all_digits "A1" "5")
    as [values'| | |]; [by exists values'|done..].
Qed.

Lemma assignPosibleValues_determines_witness :
  CandidateMap all_digits ∧
  (cand all_digits "A1" = ["5"%char] →
   ∀ p, p ∈ peers "A1" → "5"%char ∉ cand all_digits p) ∧
  "5"%char ∈ cand all_digits "A1" ∧
  ∃ values',
    assignPosibleValues elements (Assign elements 9) 9 all_digits "A1" "5" =
      Dict values' ∧
    CandidateMap values' ∧ values' !!! "A1" = "5" ∧
    (∀ p, p ∈ peers "A1" → "5"%char ∉ cand values' p) ∧
    (cand all_digits "A1" = ["5"%char] → values' = all_digits).
Proof.
  assert (H5 : "5"%char ∈ cand all_digits "A1") by by_evaluation.
  assert (Hpeers : cand all_digits "A1" = ["5"%char] →
                   ∀ p, p ∈ peers "A1" → "5"%char ∉ cand all_digits p).
  { intros Hone. exact (all_digits_good "A1" "5"%char Hone). }
  split; [exact all_digits_CandidateMap|]. split; [exact Hpeers|].
  split; [exact H5|].
  destruct blank_assigned as [values' Hrun]. exists values'.
  split; [exact Hrun|].
  exact (assignPosibleValues_determines elements (Assign elements 9) 9 all_digits
           "A1" "5" values' elements_perm (Assign_shrinks elements 9 elements_perm)
           all_digits_CandidateMap Hpeers H5 Hrun).
Defined.

(** ** The whole solver *)

(** X8. Given fuel for all the eliminations, [solve] on a grid of 81
    characters ends with a map or with [False], and it decides whether the
    grid can be solved: [False] exactly when the grid has no solution, a map
    that solves the grid exactly when it has one. *)
Theorem solve_decides set_iter dict_items n fuel grid :
  (∀ X, set_iter X ≡ₚ elements X) →
  (∀ m, dict_items m ≡ₚ map_to_list m) →
  length (grid_chars grid) = 81 →
  2 * 729 < fuel → 2 * 729 < n →
  settled (solve set_iter dict_items (Assign set_iter n) fuel grid) ∧
  (solve set_iter dict_items (Assign set_iter n) fuel grid = PyFalse ↔
     ∀ sol, ¬ solution grid sol) ∧
  ((∃ values, solve set_iter dict_items (Assign set_iter n) fuel grid = Dict values ∧
              solution grid values) ↔
     ∃ sol, solution grid sol).
Proof.
  intros Hset Hitems Hlen Hfuel Hn.
  pose proof (solve_settles set_iter dict_items n fuel grid Hset Hitems Hlen Hfuel Hn)
    as Hsettled.
  split_and!; [done| |].
  - split.
    + intros Hfalse sol Hsol.
      by apply (solve_complete set_iter dict_items n fuel grid sol Hset Hitems Hsol).
    + intros Hnone.
      destruct (solve _ _ _ _ _) as [values| | |] eqn:E; [|done..].
      destruct (Hnone values).
      apply (solve_sound set_iter dict_items (Assign set_iter n) fuel); [done..| |done].
      by apply Assign_shrinks.
  - split.
    + intros (values & _ & Hsol). by exists values.
    + intros [sol Hsol]. by apply (solve_finds _ _ _ _ _ sol).
Qed.

Lemma solve_decides_witness :
  length (grid_chars twice_grid) = 81 ∧
  settled (solve elements map_to_list (Assign elements 1459) 1459 twice_grid) ∧
  (solve elements map_to_list (Assign elements 1459) 1459 twice_grid = PyFalse ↔
     ∀ sol, ¬ solution twice_grid sol) ∧
  ((∃ values,
      solve elements map_to_list (Assign elements 1459) 1459 twice_grid = Dict values ∧
      solution twice_grid values) ↔
     ∃ sol, solution twice_grid sol).
Proof.
  assert (Hlen : length (grid_chars twice_grid) = 81) by by vm_compute.
  split; [exact Hlen|].
  apply (solve_decides elements map_to_list 1459 1459 twice_grid elements_perm
           map_to_list_perm Hlen); lia.
Defined.

Lemma validValues_no_exception {A} (f : A → outcome) l :
  (∀ x, x ∈ l → no_exception (f x)) → no_exception (validValues f l).
Proof.
  induction l as [|x l IH]; intros Hf e; simpl; [done|].
  pose proof (Hf x (list_elem_of_here _ _)) as Hx.
  destruct (f x) as [v| |e'|] eqn:E; [done| |apply Hx|done].
  apply IH. intros y Hy. apply Hf. by right.
Qed.

Lemma unfilled_nil v :
  unfilled v = [] → Forall (λ square, length (cand v square) ≤ 1) squares.
Proof.
  unfold unfilled. intros Hnil%fmap_nil_inv. apply Forall_forall. intros s Hs.
  destruct (decide (1 < length (cand v s))) as [Hlt|]; [|lia].
  assert (s ∈ filter (λ square, 1 < length (chars (v !!! square))) squares) as Hin
    by by apply list_elem_of_filter.
  rewrite Hnil in Hin. by apply elem_of_nil in Hin.
Qed.

Lemma deepSearch_no_exception assign fuel v :
  assign_ok assign →
  (∀ v s d, no_exception (assign v s d)) →
  (∀ s, s ∈ squares → cand v s ≠ []) →
  no_exception (deepSearch assign fuel (Dict v)).
Proof.
  intros Hok Hassign. revert v. induction fuel as [|fuel IH]; intros v Hne; [done|].
  cbn [deepSearch]. case_decide as Hall; [done|].
  destruct (py_min tuple_ltb (unfilled v)) as [[n s]|] eqn:Hmin.
  - apply validValues_no_exception. intros d _.
    pose proof (Hassign v s d) as Hd.
    destruct (assign v s d) as [v1| |e'|] eqn:E.
    + apply IH. intros p Hp. apply Hok in E as [Hsh _]. by apply Hsh, Hne.
    + by destruct fuel.
    + by destruct (Hd e').
    + by destruct fuel.
  - destruct Hall. destruct (unfilled v) as [|x l] eqn:Hnil; [|done].
    apply unfilled_nil in Hnil. rewrite Forall_forall in Hnil.
    apply Forall_forall. intros s Hs. specialize (Hnil s Hs). specialize (Hne s Hs).
    unfold cand in *. destruct (chars (v !!! s)) as [|? [|]]; simpl in *; [done..|lia].
Qed.

(** X9. The assertion of [getGridValues] is the only exception that leaves
    [solve]: [min] in [deepSearch] is never handed an empty sequence, since
    the maps that come from [parseGrid] and from the assignments have no
    empty square.  This holds for every [self.assign] that only eliminates and
    raises nothing itself. *)
Theorem solve_raises_only_assertion set_iter dict_items assign fuel grid e :
  (∀ X, set_iter X ≡ₚ elements X) →
  (∀ m, dict_items m ≡ₚ map_to_list m) →
  assign_ok assign →
  (∀ v s d, no_exception (assign v s d)) →
  solve set_iter dict_items assign fuel grid = Raised e →
  e = AssertionError ∧ length (grid_chars grid) ≠ 81.
Proof.
  intros Hset Hitems Hok Hassign. unfold solve.
  destruct (parseGrid _ _ _ _ _) as [v| |e'|] eqn:E.
  - intros Hraised. exfalso.
    apply (parseGrid_shrinks _ _ _ Hset Hitems Hok) in E as [Hsh _].
    apply (deepSearch_no_exception assign fuel v Hok Hassign) in Hraised; [done|].
    intros s Hs. by apply Hsh, all_digits_nonempty.
  - by destruct fuel.
  - intros He. assert (e' = e) as -> by (by destruct fuel; injection He).
    revert E. unfold parseGrid, getGridValues. case_decide as Hlen.
    + intros E. exfalso. revert E. apply all_no_exception. intros v1 item.
      unfold parseGrid_step. case_decide; [|done].
      by apply assignPosibleValues_no_exception.
    + by intros [= <-].
  - by destruct fuel.
Qed.

Lemma solve_raises_only_assertion_witness :
  assign_ok (Assign elements 1) ∧
  solve elements map_to_list (Assign elements 1) 1 "12" = Raised AssertionError ∧
  AssertionError = AssertionError ∧ length (grid_chars "12") ≠ 81.
Proof.
  assert (Hrun : solve elements map_to_list (Assign elements 1) 1 "12" =
                 Raised AssertionError) by reflexivity.
  split; [exact (Assign_shrinks elements 1 elements_perm)|]. split; [exact Hrun|].
  exact (solve_raises_only_assertion elements map_to_list (Assign elements 1) 1 "12"
           AssertionError elements_perm map_to_list_perm
           (Assign_shrinks elements 1 elements_perm) (Assign_no_exception elements 1)
           Hrun).
Defined.

Lemma givens_square grid s d : (s, d) ∈ givens grid → s ∈ squares.
Proof. intros [_ Hin]%list_elem_of_filter. by apply elem_of_zip_l in Hin. Qed.

(** X10. A grid that gives the same digit to two squares of one unit is
    never parsed into a map; given fuel for the eliminations, [parseGrid]
    returns [False] on it, and so does [solve]. *)
Theorem parseGrid_conflict set_iter dict_items grid s p d :
  (∀ X, set_iter X ≡ₚ elements X) →
  (∀ m, dict_items m ≡ₚ map_to_list m) →
  length (grid_chars grid) = 81 →
  (s, d) ∈ givens grid → (p, d) ∈ givens grid → p ∈ peers s →
  (∀ assign fuel values, assign_ok assign →
     parseGrid set_iter dict_items assign fuel grid ≠ Dict values) ∧
  (∀ n fuel, 2 * 729 < fuel → 2 * 729 < n →
     parseGrid set_iter dict_items (Assign set_iter n) fuel grid = PyFalse ∧
     solve set_iter dict_items (Assign set_iter n) fuel grid = PyFalse).
Proof.
  intros Hset Hitems Hlen Hs Hp Hpeer.
  assert (Hnot : ∀ assign fuel values, assign_ok assign →
    parseGrid set_iter dict_items assign fuel grid ≠ Dict values).
  { intros assign fuel values Hok Hparse.
    apply (parseGrid_shrinks _ _ _ Hset Hitems Hok) in Hparse as [Hsh Hgiven].
    assert (Hmap : CandidateMap values).
    { eapply shrinks_CandidateMap; [done|]. apply all_digits_CandidateMap. }
    assert (Hone : ∀ q, (q, d) ∈ givens grid → cand values q = [d]).
    { intros q Hq. pose proof (givens_square _ _ _ Hq) as Hsq.
      apply only_digit; [by apply CandidateMap_NoDup| |by apply Hgiven].
      by apply Hsh, all_digits_nonempty. }
    apply (shrinks_good _ _ Hsh s (all_digits_good s) d (Hone s Hs) p Hpeer).
    rewrite (Hone p Hp). left. }
  split; [done|]. intros n fuel Hfuel Hn.
  assert (Hparse : parseGrid set_iter dict_items (Assign set_iter n) fuel grid = PyFalse).
  { pose proof (parseGrid_settles set_iter dict_items n fuel grid Hset Hlen Hfuel Hn)
      as Hsettled.
    destruct (parseGrid _ _ _ _ _) as [values| | |] eqn:E; [|done..].
    by destruct (Hnot _ _ _ (Assign_shrinks set_iter n Hset) E). }
  split; [done|]. unfold solve. rewrite Hparse. by destruct fuel.
Qed.

Lemma parseGrid_conflict_witness :
  length (grid_chars twice_grid) = 81 ∧
  ("A1", "1"%char) ∈ givens twice_grid ∧ ("A2", "1"%char) ∈ givens twice_grid ∧
  "A2" ∈ peers "A1" ∧
  (∀ assign fuel values, assign_ok assign →
     parseGrid elements map_to_list assign fuel twice_grid ≠ Dict values) ∧
  (∀ n fuel, 2 * 729 < fuel → 2 * 729 < n →
     parseGrid elements map_to_list (Assign elements n) fuel twice_grid = PyFalse ∧
     solve elements map_to_list (Assign elements n) fuel twice_grid = PyFalse).
Proof.
  assert (Hlen : length (grid_chars twice_grid) = 81) by by vm_compute.
  assert (H1 : ("A1", "1"%char) ∈ givens twice_grid) by by_evaluation.
  assert (H2 : ("A2", "1"%char) ∈ givens twice_grid) by by_evaluation.
  assert (Hp : "A2" ∈ peers "A1") by by_evaluation.
  split; [exact Hlen|]. split; [exact H1|]. split; [exact H2|]. split; [exact Hp|].
  exact (parseGrid_conflict elements map_to_list twice_grid "A1" "A2" "1"
           elements_perm map_to_list_perm Hlen H1 H2 Hp).
Defined.

(** ** Solved grids *)

Lemma solved_digits sol (l : list string) :
  solved_map sol → l ⊆ squares →
  ∃ ds, Forall2 (λ s d, sol !!! s = str1 d ∧ d ∈ chars digits) l ds ∧
        mjoin (chars <$> ((λ square, sol !!! square) <$> l)) = ds.
Proof.
  intros (_ & Hdigit & _). induction l as [|s l IH]; intros Hsub.
  - by exists [].
  - destruct (Hdigit s) as (d & Hd & Hsd); [apply Hsub; left|].
    destruct IH as (ds & Hall & Hjoin); [intros x Hx; apply Hsub; by right|].
    exists (d :: ds). split; [by constructor|].
    rewrite <- Hjoin, !fmap_cons, Hsd. done.
Qed.

Lemma Forall2_zip {A B} (P : A → B → Prop) l k x y :
  Forall2 P l k → (x, y) ∈ zip l k → P x y.
Proof.
  induction 1 as [|a b l k Hab _ IH]; simpl; [by intros ?%elem_of_nil|].
  intros [[= -> ->]|Hin]%elem_of_cons; auto.
Qed.

Lemma Forall2_zip_l {A B} (P : A → B → Prop) l k x :
  Forall2 P l k → x ∈ l → ∃ y, (x, y) ∈ zip l k.
Proof.
  induction 1 as [|a b l k Hab _ IH]; simpl; [by intros ?%elem_of_nil|].
  intros [->|Hin]%elem_of_cons.
  - exists b. left.
  - destruct (IH Hin) as [y Hy]. exists y. by right.
Qed.

Lemma grid_of_chars sol :
  solved_map sol →
  length (grid_chars (grid_of sol)) = 81 ∧
  Forall2 (λ s d, sol !!! s = str1 d ∧ d ∈ chars digits)
          squares (grid_chars (grid_of sol)).
Proof.
  intros Hsol. destruct (solved_digits sol squares Hsol) as (ds & Hall & Hjoin); [done|].
  assert (Hchars : grid_chars (grid_of sol) = ds).
  { unfold grid_chars, grid_of, digit_sequence. rewrite chars_of_list, Hjoin.
    clear Hjoin. induction Hall as [|s d l k [_ Hd] _ IH]; [done|].
    rewrite filter_cons_True by by left. by f_equal. }
  rewrite Hchars. split; [|done].
  apply Forall2_length in Hall. rewrite <- Hall. by vm_compute.
Qed.

Lemma grid_of_solution sol : solved_map sol → solution (grid_of sol) sol.
Proof.
  intros Hsol. split; [done|]. intros s d [_ Hin]%list_elem_of_filter.
  destruct (grid_of_chars sol Hsol) as [_ Hall].
  by destruct (Forall2_zip _ _ _ _ _ Hall Hin).
Qed.

Lemma grid_of_given sol s d :
  solved_map sol → s ∈ squares → sol !!! s = str1 d → (s, d) ∈ givens (grid_of sol).
Proof.
  intros Hsol Hs Hsd. destruct (grid_of_chars sol Hsol) as [_ Hall].
  destruct (Forall2_zip_l _ _ _ _ Hall Hs) as [c Hc].
  destruct (Forall2_zip _ _ _ _ _ Hall Hc) as [Hsc Hdigit].
  rewrite Hsd in Hsc. injection Hsc as ->.
  by apply list_elem_of_filter.
Qed.

(** X11. A solved map is a fixed point of the solver: on the grid that
    spells its 81 digits, [parseGrid] alone returns the map, the search has
    nothing left to do, and [solve] returns the same map.  So solving the
    grid of a result of [solve] gives this result again. *)
Theorem solve_round_trip set_iter dict_items n fuel sol :
  (∀ X, set_iter X ≡ₚ elements X) →
  (∀ m, dict_items m ≡ₚ map_to_list m) →
  solved_map sol →
  2 * 729 < fuel → 2 * 729 < n →
  length (grid_chars (grid_of sol)) = 81 ∧
  parseGrid set_iter dict_items (Assign set_iter n) fuel (grid_of sol) = Dict sol ∧
  solve set_iter dict_items (Assign set_iter n) fuel (grid_of sol) = Dict sol.
Proof.
  intros Hset Hitems Hsol Hfuel Hn.
  destruct (grid_of_chars sol Hsol) as [Hlen _].
  pose proof (Assign_shrinks set_iter n Hset) as Hok.
  assert (Hparse :
    parseGrid set_iter dict_items (Assign set_iter n) fuel (grid_of sol) = Dict sol).
  { pose proof (parseGrid_settles set_iter dict_items n fuel _ Hset Hlen Hfuel Hn)
      as Hsettled.
    destruct (parseGrid_complete set_iter dict_items (Assign set_iter n) sol
                (grid_of sol) Hset Hitems Hok (Assign_complete set_iter n sol Hset Hsol)
                (grid_of_solution sol Hsol) fuel) as [Hne Hkeep].
    destruct (parseGrid _ _ _ _ _) as [v| | |] eqn:E; [|done..].
    destruct (Hkeep v eq_refl) as [Hmap Hfit].
    apply (parseGrid_shrinks _ _ _ Hset Hitems Hok) in E as [Hsh Hgiven].
    f_equal. symmetry. apply fits_solved; [done| |done].
    apply solved_map_intro; [done|]. apply Forall_forall. intros s Hs.
    destruct Hsol as (Hdom & Hdigit & Hunits).
    destruct (Hdigit s Hs) as (d & Hd & Hsd).
    rewrite (only_digit (cand v s) d); [done|by apply CandidateMap_NoDup| |].
    - by apply Hsh, all_digits_nonempty.
    - apply Hgiven. by apply grid_of_given. }
  split_and!; [done..|]. unfold solve. rewrite Hparse.
  destruct fuel as [|fuel]; [lia|]. cbn [deepSearch]. rewrite decide_True; [done|].
  apply Forall_forall. intros s Hs. destruct Hsol as (_ & Hdigit & _).
  destruct (Hdigit s Hs) as (d & _ & ->). done.
Qed.

Lemma easy_solution_solves : solution easy_grid easy_solution.
Proof.
  exact (solve_sound elements map_to_list (Assign elements 60) 60 easy_grid
           easy_solution elements_perm map_to_list_perm
           (Assign_shrinks elements 60 elements_perm) easy_grid_solved).
Qed.

Lemma solve_round_trip_witness :
  solved_map easy_solution ∧
  length (grid_chars (grid_of easy_solution)) = 81 ∧
  parseGrid elements map_to_list (Assign elements 1459) 1459 (grid_of easy_solution) =
    Dict easy_solution ∧
  solve elements map_to_list (Assign elements 1459) 1459 (grid_of easy_solution) =
    Dict easy_solution.
Proof.
  split; [exact (proj1 easy_solution_solves)|].
  apply (solve_round_trip elements map_to_list 1459 1459 easy_solution elements_perm
           map_to_list_perm (proj1 easy_solution_solves)); lia.
Defined.

(** ** Reporting *)

(** X12. [getMatrix] goes through the items of the map by ascending key:
    the sorted list holds the items of the map, each once, and its values are
    those the map has at its keys.  For a map whose keys are the squares it
    hands the 81 values from A1 to I9 to [convertStringToMatrix]; on [False]
    it raises [TypeError]. *)
Theorem getMatrix_sorted (matrix : Type) (convertStringToMatrix : list string → matrix)
    values :
  sorted_items values ≡ₚ map_to_list values ∧
  StronglySorted String.le (sorted_items values).*1 ∧
  NoDup (sorted_items values).*1 ∧
  (sorted_items values).*2 = (λ key, values !!! key) <$> (sorted_items values).*1 ∧
  (dom values = list_to_set squares →
     getMatrix matrix convertStringToMatrix (Some values) =
       inr (convertStringToMatrix (digit_sequence values))) ∧
  getMatrix matrix convertStringToMatrix None = inl TypeError.
Proof.
  assert (Hperm : sorted_items values ≡ₚ map_to_list values)
    by apply merge_sort_Permutation.
  split_and!; [done| | | | |done].
  - assert (Hsorted : StronglySorted (λ x y : string * string, String.le x.1 y.1)
                        (sorted_items values))
      by (apply StronglySorted_merge_sort; apply _).
    clear Hperm. induction Hsorted as [|x l _ IH Hx]; simpl; constructor; [done|].
    apply Forall_fmap. eapply Forall_impl; [exact Hx|]. done.
  - rewrite Hperm. apply NoDup_fst_map_to_list.
  - rewrite <- list_fmap_compose. apply list_fmap_ext. intros i [k x] Hi. simpl.
    symmetry. apply lookup_total_correct, elem_of_map_to_list. rewrite <- Hperm.
    by eapply list_elem_of_lookup_2.
  - intros Hdom. unfold getMatrix. by rewrite sorted_items_digit_sequence.
Qed.

(** X13. On a grid of 81 characters that has a solution [timeSolve] ends
    without an exception: [self.solution] is made from the 81 digits of a
    solution of the grid, and the flag is what [solved] says of that map. *)
Theorem timeSolve_reports (matrix : Type) (convertStringToMatrix : list string → matrix)
    (solved : option Values → bool) set_iter dict_items n fuel grid sol :
  (∀ X, set_iter X ≡ₚ elements X) →
  (∀ m, dict_items m ≡ₚ map_to_list m) →
  length (grid_chars grid) = 81 →
  solution grid sol →
  2 * 729 < fuel → 2 * 729 < n →
  ∃ values,
    solution grid values ∧
    solve set_iter dict_items (Assign set_iter n) fuel grid = Dict values ∧
    timeSolve set_iter dict_items (Assign set_iter n) matrix convertStringToMatrix
      solved fuel grid =
    Reported (convertStringToMatrix (digit_sequence values)) (solved (Some values)).
Proof.
  intros Hset Hitems Hlen Hsol Hfuel Hn.
  destruct (solve_finds set_iter dict_items n fuel grid sol Hset Hitems Hlen Hsol
              Hfuel Hn) as (values & Hrun & Hvalues).
  exists values. split_and!; [done..|]. unfold timeSolve, getMatrix. rewrite Hrun.
  rewrite sorted_items_digit_sequence; [done|]. by destruct Hvalues as [[? _] _].
Qed.

Lemma timeSolve_reports_witness :
  length (grid_chars easy_grid) = 81 ∧ solution easy_grid easy_solution ∧
  ∃ values,
    solution easy_grid values ∧
    solve elements map_to_list (Assign elements 1459) 1459 easy_grid = Dict values ∧
    timeSolve elements map_to_list (Assign elements 1459) (list string) id
      (λ _, true) 1459 easy_grid =
    Reported (digit_sequence values) true.
Proof.
  assert (Hlen : length (grid_chars easy_grid) = 81) by by vm_compute.
  split; [exact Hlen|]. split; [exact easy_solution_solves|].
  apply (timeSolve_reports (list string) id (λ _, true) elements map_to_list 1459 1459
           easy_grid easy_solution elements_perm map_to_list_perm Hlen
           easy_solution_solves); lia.
Defined.

(** ** The batch *)

Lemma timeSolve_each_results (matrix : Type)
    (convertStringToMatrix : list string → matrix) (solved : option Values → bool)
    set_iter dict_items n fuel grids :
  (∀ X, set_iter X ≡ₚ elements X) →
  (∀ m, dict_items m ≡ₚ map_to_list m) →
  2 * 729 < fuel → 2 * 729 < n →
  Forall (λ grid, length (grid_chars grid) = 81 ∧ ∃ sol, solution grid sol) grids →
  ∃ flags,
    timeSolve_each set_iter dict_items (Assign set_iter n) matrix convertStringToMatrix
      solved fuel grids = Results flags ∧
    Forall2 (λ grid flag, ∃ values,
               solution grid values ∧
               solve set_iter dict_items (Assign set_iter n) fuel grid = Dict values ∧
               flag = solved (Some values)) grids flags.
Proof.
  intros Hset Hitems Hfuel Hn.
  induction 1 as [|grid grids [Hlen [sol Hsol]] _ (flags & Hrun & Hflags)].
  - by exists [].
  - destruct (solve_finds set_iter dict_items n fuel grid sol Hset Hitems Hlen Hsol
                Hfuel Hn) as (values & Hvalues & Hsolution).
    exists (solved (Some values) :: flags). split.
    + cbn [timeSolve_each]. unfold timeSolve, getMatrix. by rewrite Hvalues, Hrun.
    + constructor; [|done]. by exists values.
Qed.

Lemma timeSolve_each_aborts (matrix : Type)
    (convertStringToMatrix : list string → matrix) (solved : option Values → bool)
    set_iter dict_items n fuel pre grid post e :
  (∀ X, set_iter X ≡ₚ elements X) →
  (∀ m, dict_items m ≡ₚ map_to_list m) →
  2 * 729 < fuel → 2 * 729 < n →
  Forall (λ grid, length (grid_chars grid) = 81 ∧ ∃ sol, solution grid sol) pre →
  timeSolve set_iter dict_items (Assign set_iter n) matrix convertStringToMatrix
    solved fuel grid = Aborted e →
  solveSudoku set_iter dict_items (Assign set_iter n) matrix convertStringToMatrix
    solved fuel (pre ++ grid :: post) = BatchAborted e.
Proof.
  intros Hset Hitems Hfuel Hn Hpre Hgrid. unfold solveSudoku.
  assert (timeSolve_each set_iter dict_items (Assign set_iter n) matrix
            convertStringToMatrix solved fuel (pre ++ grid :: post) = BatchAborted e)
    as ->; [|done].
  induction Hpre as [|g pre [Hlen [sol Hsol]] _ IH]; cbn [app timeSolve_each].
  - by rewrite Hgrid.
  - destruct (solve_finds set_iter dict_items n fuel g sol Hset Hitems Hlen Hsol
                Hfuel Hn) as (values & Hvalues & _).
    unfold timeSolve at 1. unfold getMatrix. by rewrite Hvalues, IH.
Qed.

(** X14. When every grid of the batch has 81 characters and a solution,
    [solveSudoku] gets through: [results] holds one flag per grid, in the
    order of the grids, each being what [solved] says of a solution of its
    grid. *)
Theorem solveSudoku_results (matrix : Type)
    (convertStringToMatrix : list string → matrix) (solved : option Values → bool)
    set_iter dict_items n fuel grids :
  (∀ X, set_iter X ≡ₚ elements X) →
  (∀ m, dict_items m ≡ₚ map_to_list m) →
  2 * 729 < fuel → 2 * 729 < n →
  grids ≠ [] →
  Forall (λ grid, length (grid_chars grid) = 81 ∧ ∃ sol, solution grid sol) grids →
  ∃ flags,
    solveSudoku set_iter dict_items (Assign set_iter n) matrix convertStringToMatrix
      solved fuel grids = Results flags ∧
    length flags = length grids ∧
    Forall2 (λ grid flag, ∃ values,
               solution grid values ∧
               solve set_iter dict_items (Assign set_iter n) fuel grid = Dict values ∧
               flag = solved (Some values)) grids flags.
Proof.
  intros Hset Hitems Hfuel Hn Hne Hall.
  destruct (timeSolve_each_results matrix convertStringToMatrix solved set_iter
              dict_items n fuel grids Hset Hitems Hfuel Hn Hall)
    as (flags & Hrun & Hflags).
  exists flags. pose proof (Forall2_length _ _ _ Hflags) as Hlen.
  split_and!; [|done..]. unfold solveSudoku. rewrite Hrun.
  destruct flags; [|done]. by destruct grids.
Qed.

Lemma solveSudoku_results_witness :
  [easy_grid; grid_of easy_solution] ≠ [] ∧
  Forall (λ grid, length (grid_chars grid) = 81 ∧ ∃ sol, solution grid sol)
         [easy_grid; grid_of easy_solution] ∧
  ∃ flags,
    solveSudoku elements map_to_list (Assign elements 1459) (list string) id
      (λ result, bool_decide (is_Some result)) 1459
      [easy_grid; grid_of easy_solution] = Results flags ∧
    length flags = length [easy_grid; grid_of easy_solution] ∧
    Forall2 (λ grid flag, ∃ values,
               solution grid values ∧
               solve elements map_to_list (Assign elements 1459) 1459 grid =
                 Dict values ∧
               flag = bool_decide (is_Some (Some values)))
            [easy_grid; grid_of easy_solution] flags.
Proof.
  assert (Hne : [easy_grid; grid_of easy_solution] ≠ []) by done.
  assert (Hall : Forall (λ grid, length (grid_chars grid) = 81 ∧
                                 ∃ sol, solution grid sol)
                        [easy_grid; grid_of easy_solution]).
  { apply Forall_cons. split; [split|].
    - by vm_compute.
    - exists easy_solution. exact easy_solution_solves.
    - apply Forall_cons. split; [split|by apply Forall_nil].
      + exact (proj1 (grid_of_chars easy_solution (proj1 easy_solution_solves))).
      + exists easy_solution.
        exact (grid_of_solution easy_solution (proj1 easy_solution_solves)). }
  split; [exact Hne|]. split; [exact Hall|].
  apply (solveSudoku_results (list string) id (λ result, bool_decide (is_Some result))
           elements map_to_list 1459 1459 [easy_grid; grid_of easy_solution]
           elements_perm map_to_list_perm); [lia|lia|exact Hne|exact Hall].
Defined.

(** X15. One grid is enough to end [solveSudoku] with an exception, and the
    results of the grids before it are lost with it: the first grid that has
    not 81 characters ends it with the [AssertionError] of [getGridValues],
    the first grid of 81 characters without a solution with the [TypeError] of
    [getMatrix].  With no grid at all the unpacking of [zip] fails with a
    [ValueError]. *)
Theorem solveSudoku_aborts (matrix : Type)
    (convertStringToMatrix : list string → matrix) (solved : option Values → bool)
    set_iter dict_items n fuel :
  (∀ X, set_iter X ≡ₚ elements X) →
  (∀ m, dict_items m ≡ₚ map_to_list m) →
  2 * 729 < fuel → 2 * 729 < n →
  solveSudoku set_iter dict_items (Assign set_iter n) matrix convertStringToMatrix
    solved fuel [] = BatchAborted ValueError ∧
  ∀ pre grid post,
    Forall (λ grid, length (grid_chars grid) = 81 ∧ ∃ sol, solution grid sol) pre →
    (length (grid_chars grid) ≠ 81 →
       solveSudoku set_iter dict_items (Assign set_iter n) matrix convertStringToMatrix
         solved fuel (pre ++ grid :: post) = BatchAborted AssertionError) ∧
    (length (grid_chars grid) = 81 → (∀ sol, ¬ solution grid sol) →
       solveSudoku set_iter dict_items (Assign set_iter n) matrix convertStringToMatrix
         solved fuel (pre ++ grid :: post) = BatchAborted TypeError).
Proof.
  intros Hset Hitems Hfuel Hn. split; [done|]. intros pre grid post Hpre.
  pose proof (Assign_shrinks set_iter n Hset) as Hok. split.
  - intros Hlen. apply timeSolve_each_aborts; [done..|].
    unfold timeSolve, solve, parseGrid, getGridValues.
    rewrite decide_False by done. by destruct fuel.
  - intros Hlen Hnone. apply timeSolve_each_aborts; [done..|].
    pose proof (solve_settles set_iter dict_items n fuel grid Hset Hitems Hlen Hfuel Hn)
      as Hsettled.
    unfold timeSolve.
    destruct (solve _ _ _ _ _) as [values| | |] eqn:E; [|done..].
    destruct (Hnone values). by apply (solve_sound _ _ _ _ _ _ Hset Hitems Hok E).
Qed.

Lemma solveSudoku_aborts_witness :
  2 * 729 < 1459 ∧
  solveSudoku elements map_to_list (Assign elements 1459) (list string) id
    (λ result, bool_decide (is_Some result)) 1459 [] = BatchAborted ValueError ∧
  ∀ pre grid post,
    Forall (λ grid, length (grid_chars grid) = 81 ∧ ∃ sol, solution grid sol) pre →
    (length (grid_chars grid) ≠ 81 →
       solveSudoku elements map_to_list (Assign elements 1459) (list string) id
         (λ result, bool_decide (is_Some result)) 1459 (pre ++ grid :: post) =
       BatchAborted AssertionError) ∧
    (length (grid_chars grid) = 81 → (∀ sol, ¬ solution grid sol) →
       solveSudoku elements map_to_list (Assign elements 1459) (list string) id
         (λ result, bool_decide (is_Some result)) 1459 (pre ++ grid :: post) =
       BatchAborted TypeError).
Proof.
  assert (Hfuel : 2 * 729 < 1459) by lia.
  split; [exact Hfuel|].
  exact (solveSudoku_aborts (list string) id (λ result, bool_decide (is_Some result))
           elements map_to_list 1459 1459 elements_perm map_to_list_perm Hfuel Hfuel).
Defined.

(** ** The search *)




(** X17. [deepSearch] counts on maps without an empty square.  On a map
    that has every square as a key (the lookups of a map that lacks one raise
    [KeyError] before anything else), in which no square has two candidates or
    more and some square has none, the squares are not all determined and
    there is no square to choose: the sequence handed to [min] is empty, and
    [deepSearch] ends with a [ValueError]. *)
Theorem deepSearch_empty_square assign fuel values :
  has_squares values →
  Forall (λ square, length (cand values square) ≤ 1) squares →
  Exists (λ square, cand values square = []) squares →
  deepSearch assign (S fuel) (Dict values) = Raised ValueError.
Proof.
  intros _ Hmost Hempty. cbn [deepSearch]. rewrite decide_False.
  - assert (unfilled values = []) as ->; [|done].
    unfold unfilled. clear Hempty.
    induction Hmost as [|s l Hs _ IH]; [done|].
    rewrite filter_cons_False; [done|]. unfold cand in Hs. lia.
  - intros Hall. apply Exists_exists in Hempty as (s & Hs & Hnil).
    rewrite Forall_forall in Hall. specialize (Hall s Hs).
    unfold cand in Hnil. by rewrite Hnil in Hall.
Qed.

Lemma deepSearch_empty_square_witness :
  has_squares (<["A1" := ""]> easy_solution) ∧
  Forall (λ square, length (cand (<["A1" := ""]> easy_solution) square) ≤ 1) squares ∧
  Exists (λ square, cand (<["A1" := ""]> easy_solution) square = []) squares ∧
  deepSearch (Assign elements 1) 1 (Dict (<["A1" := ""]> easy_solution)) =
    Raised ValueError.
Proof.
  assert (H1 : has_squares (<["A1" := ""]> easy_solution)) by by_evaluation.
  assert (H2 : Forall (λ square,
                  length (cand (<["A1" := ""]> easy_solution) square) ≤ 1) squares)
    by by_evaluation.
  assert (H3 : Exists (λ square, cand (<["A1" := ""]> easy_solution) square = [])
                      squares) by by_evaluation.
  split; [exact H1|]. split; [exact H2|]. split; [exact H3|].
  exact (deepSearch_empty_square (Assign elements 1) 0 _ H1 H2 H3).
Defined.

(** ** Propagation, continued *)

(** X18. Propagation is idempotent.  Eliminating a digit again from the map
    that an elimination returned changes nothing, and so does assigning a
    digit again in the map that its assignment returned: the second call
    returns the map as it is. *)
Theorem propagation_idempotent set_iter assign fuel values square digit :
  (∀ X, set_iter X ≡ₚ elements X) →
  assign_ok assign →
  CandidateMap values →
  digit ∈ cand values square →
  (∀ values', eliminate set_iter assign fuel values square digit = Dict values' →
     ∀ fuel', eliminate set_iter assign (S fuel') values' square digit = Dict values') ∧
  (∀ values', assignPosibleValues set_iter assign fuel values square digit =
                Dict values' →
     ∀ fuel', assignPosibleValues set_iter assign fuel' values' square digit =
                Dict values').
Proof.
  intros Hset Hok Hmap Hin. split.
  - intros values' [_ Hout]%(eliminate_shrinks set_iter assign Hset Hok) fuel'.
    rewrite eliminate_S. by rewrite decide_False.
  - intros values' Hrun fuel'.
    apply (assignPosibleValues_shrinks set_iter assign Hset Hok) in Hrun
      as [Hsh Honly].
    assert (Hne : cand values square ≠ []).
    { intros Hnil. rewrite Hnil in Hin. by apply elem_of_nil in Hin. }
    assert (Hone : cand values' square = [digit]).
    { apply only_digit; [|by apply Hsh|done].
      apply CandidateMap_NoDup; [by eapply shrinks_CandidateMap|].
      by apply (CandidateMap_square values). }
    unfold assignPosibleValues. rewrite chars_str_remove. fold (cand values' square).
    rewrite Hone. by rewrite filter_cons_False, filter_nil by (by intros []).
Qed.

Lemma propagation_idempotent_witness :
  CandidateMap all_digits ∧ "5"%char ∈ cand all_digits "A1" ∧
  (∀ values', eliminate elements (Assign elements 9) 9 all_digits "A1" "5" =
                Dict values' →
     ∀ fuel', eliminate elements (Assign elements 9) (S fuel') values' "A1" "5" =
                Dict values') ∧
  (∀ values', assignPosibleValues elements (Assign elements 9) 9 all_digits "A1" "5" =
                Dict values' →
     ∀ fuel', assignPosibleValues elements (Assign elements 9) fuel' values' "A1" "5" =
                Dict values').
Proof.
  assert (H5 : "5"%char ∈ cand all_digits "A1") by by_evaluation.
  split; [exact all_digits_CandidateMap|]. split; [exact H5|].
  exact (propagation_idempotent elements (Assign elements 9) 9 all_digits "A1" "5"
           elements_perm (Assign_shrinks elements 9 elements_perm)
           all_digits_CandidateMap H5).
Defined.

Lemma sublist_length_lt {A} (l1 l2 : list A) x :
  l1 `sublist_of` l2 → x ∈ l2 → x ∉ l1 → length l1 < length l2.
Proof.
  induction 1 as [|y l1 l2 _ IH|y l1 l2 Hsub _]; simpl.
  - by intros ?%elem_of_nil.
  - rewrite !elem_of_cons. intros [->|Hx] Hnot; [by destruct Hnot; left|].
    apply Nat.succ_lt_mono with (n := length l1), IH; [done|]. intros ?. apply Hnot. by right.
  - intros _ _. apply sublist_length in Hsub. lia.
Qed.

(** X19. Every elimination that goes through makes the map smaller: the
    map that [eliminate] returns for a candidate of the square has fewer
    candidates in all than the one it was given, and the map that
    [assignPosibleValues] returns has no more.  Starting from the 729
    candidates of the blank board, no run can go through more than 729
    eliminations. *)
Theorem eliminate_progress set_iter assign fuel values square digit :
  (∀ X, set_iter X ≡ₚ elements X) →
  assign_ok assign →
  digit ∈ cand values square →
  weight all_digits = 729 ∧
  (∀ values', eliminate set_iter assign fuel values square digit = Dict values' →
     weight values' < weight values) ∧
  (∀ values' c, assignPosibleValues set_iter assign fuel values square c =
                  Dict values' →
     weight values' ≤ weight values ∧
     (c ≠ digit → weight values' < weight values)).
Proof.
  intros Hset Hok Hin. split_and!; [apply weight_all_digits| |].
  - intros values' [Hsh Hout]%(eliminate_shrinks set_iter assign Hset Hok).
    apply (weight_lt _ _ square); [apply Hsh..|].
    by apply (sublist_length_lt _ _ digit); [apply Hsh|..].
  - intros values' c [Hsh Honly]%(assignPosibleValues_shrinks set_iter assign Hset Hok).
    split; [by apply shrinks_weight|]. intros Hc.
    apply (weight_lt _ _ square); [apply Hsh..|].
    apply (sublist_length_lt _ _ digit); [apply Hsh|done|].
    intros Hdigit. destruct Hc. symmetry. by apply Honly.
Qed.

Lemma eliminate_progress_witness :
  "5"%char ∈ cand all_digits "A1" ∧
  weight all_digits = 729 ∧
  (∀ values', eliminate elements (Assign elements 9) 9 all_digits "A1" "5" =
                Dict values' →
     weight values' < weight all_digits) ∧
  (∀ values' c, assignPosibleValues elements (Assign elements 9) 9 all_digits "A1" c =
                  Dict values' →
     weight values' ≤ weight all_digits ∧
     (c ≠ "5"%char → weight values' < weight all_digits)).
Proof.
  assert (H5 : "5"%char ∈ cand all_digits "A1") by by_evaluation.
  split; [exact H5|].
  exact (eliminate_progress elements (Assign elements 9) 9 all_digits "A1" "5"
           elements_perm (Assign_shrinks elements 9 elements_perm) H5).
Defined.

(** ** The fuel *)

Lemma all_more {A} (f g : Values → A → outcome) v l :
  (∀ v x, f v x ≠ OutOfFuel → g v x = f v x) →
  all_ f v l ≠ OutOfFuel → all_ g v l = all_ f v l.
Proof.
  intros Hfg. revert v. induction l as [|x l IH]; intros v; simpl; [done|].
  pose proof (Hfg v x) as Hx.
  destruct (f v x) as [v1| | |] eqn:E; simpl; intros Hne.
  - rewrite Hx by done. simpl. by apply IH.
  - by rewrite Hx.
  - by rewrite Hx.
  - done.
Qed.

Lemma validValues_more {A} (f g : A → outcome) l :
  (∀ x, f x ≠ OutOfFuel → g x = f x) →
  validValues f l ≠ OutOfFuel → validValues g l = validValues f l.
Proof.
  intros Hfg. induction l as [|x l IH]; simpl; [done|].
  pose proof (Hfg x) as Hx.
  destruct (f x) as [v1| | |] eqn:E; intros Hne.
  - by rewrite Hx.
  - rewrite Hx by done. by apply IH.
  - by rewrite Hx.
  - done.
Qed.

Section MoreFuel.

Variable set_iter : gset string → list string.
Variables assign assign' : Values → string → ascii → outcome.
Hypothesis assign_more : ∀ v s d, assign v s d ≠ OutOfFuel → assign' v s d = assign v s d.

Lemma reviewUnit_more v s d :
  reviewUnit assign v s d ≠ OutOfFuel → reviewUnit assign' v s d = reviewUnit assign v s d.
Proof.
  apply all_more. intros v1 unit. unfold reviewUnit_step.
  destruct (dplaces v1 d unit) as [|place [|]]; [done| |done]. apply assign_more.
Qed.

Lemma eliminate_reviewNextDigit_more fuel :
  (∀ fuel' v s d, fuel ≤ fuel' →
     eliminate set_iter assign fuel v s d ≠ OutOfFuel →
     eliminate set_iter assign' fuel' v s d = eliminate set_iter assign fuel v s d) ∧
  (∀ fuel' v s, fuel ≤ fuel' →
     reviewNextDigit set_iter assign fuel v s ≠ OutOfFuel →
     reviewNextDigit set_iter assign' fuel' v s = reviewNextDigit set_iter assign fuel v s).
Proof.
  induction fuel as [|fuel [IHe IHr]]; [done|]. split.
  - intros [|fuel'] v s d Hle; [lia|]. rewrite !eliminate_S.
    case_decide; [|done].
    specialize (IHr fuel' (<[s:=str_remove d (v !!! s)]> v) s).
    destruct (reviewNextDigit set_iter assign fuel _ s) as [v2| | |] eqn:E;
      simpl; intros Hne; [|rewrite IHr by (done || lia); done..|done].
    rewrite IHr by (done || lia). simpl. by apply reviewUnit_more.
  - intros [|fuel'] v s Hle; [lia|]. rewrite !reviewNextDigit_S.
    destruct (cand v s) as [|d [|]]; [done| |done].
    apply all_more. intros v1 p. apply IHe. lia.
Qed.

Lemma assignPosibleValues_more fuel fuel' v s d :
  fuel ≤ fuel' →
  assignPosibleValues set_iter assign fuel v s d ≠ OutOfFuel →
  assignPosibleValues set_iter assign' fuel' v s d =
  assignPosibleValues set_iter assign fuel v s d.
Proof.
  intros Hle. apply all_more. intros v1 c.
  by apply eliminate_reviewNextDigit_more.
Qed.

Lemma deepSearch_more fuel fuel' o :
  fuel ≤ fuel' →
  deepSearch assign fuel o ≠ OutOfFuel →
  deepSearch assign' fuel' o = deepSearch assign fuel o.
Proof.
  revert fuel' o. induction fuel as [|fuel IH]; intros fuel' [v| | |] Hle;
    try (by destruct fuel'); try (by destruct fuel', fuel).
  destruct fuel' as [|fuel']; [lia|]. cbn [deepSearch].
  case_decide; [done|].
  destruct (py_min tuple_ltb (unfilled v)) as [[n s]|]; [|done].
  apply validValues_more. intros d Hne.
  assert (assign v s d ≠ OutOfFuel) as Hd.
  { intros Hd. rewrite Hd in Hne. by destruct fuel. }
  rewrite (assign_more _ _ _ Hd). apply IH; [lia|done].
Qed.

Lemma parseGrid_more dict_items fuel fuel' grid :
  fuel ≤ fuel' →
  parseGrid set_iter dict_items assign fuel grid ≠ OutOfFuel →
  parseGrid set_iter dict_items assign' fuel' grid =
  parseGrid set_iter dict_items assign fuel grid.
Proof.
  intros Hle. unfold parseGrid. destruct (getGridValues grid); [|done].
  apply all_more. intros v item. unfold parseGrid_step. case_decide; [|done].
  by apply assignPosibleValues_more.
Qed.

End MoreFuel.

Lemma Assign_more set_iter n n' v s d :
  n ≤ n' → Assign set_iter n v s d ≠ OutOfFuel →
  Assign set_iter n' v s d = Assign set_iter n v s d.
Proof.
  revert n' v s d. induction n as [|n IH]; intros [|n'] v s d Hle; try done; [lia|].
  cbn [Assign]. apply assignPosibleValues_more; [|lia].
  intros v1 s1 d1. apply IH. lia.
Qed.

(** X20. The fuel of the model stands for no limit of the code: a run of
    [solve] that ends within its fuel, with a map, with [False] or with an
    exception, ends in the same way with any larger fuel.  The same holds for
    [parseGrid], and for [deepSearch] on any map. *)
Theorem solve_fuel_irrelevant set_iter dict_items n fuel n' fuel' grid :
  n ≤ n' → fuel ≤ fuel' →
  (solve set_iter dict_items (Assign set_iter n) fuel grid ≠ OutOfFuel →
     solve set_iter dict_items (Assign set_iter n') fuel' grid =
     solve set_iter dict_items (Assign set_iter n) fuel grid) ∧
  (parseGrid set_iter dict_items (Assign set_iter n) fuel grid ≠ OutOfFuel →
     parseGrid set_iter dict_items (Assign set_iter n') fuel' grid =
     parseGrid set_iter dict_items (Assign set_iter n) fuel grid) ∧
  (∀ o, deepSearch (Assign set_iter n) fuel o ≠ OutOfFuel →
     deepSearch (Assign set_iter n') fuel' o = deepSearch (Assign set_iter n) fuel o).
Proof.
  intros Hn Hfuel.
  assert (Hassign : ∀ v s d, Assign set_iter n v s d ≠ OutOfFuel →
            Assign set_iter n' v s d = Assign set_iter n v s d).
  { intros v s d. by apply Assign_more. }
  split_and!.
  - unfold solve. intros Hne.
    assert (parseGrid set_iter dict_items (Assign set_iter n) fuel grid ≠ OutOfFuel)
      as Hparse.
    { intros Hparse. rewrite Hparse in Hne. by destruct fuel. }
    rewrite (parseGrid_more set_iter _ _ Hassign dict_items fuel fuel' grid Hfuel Hparse).
    by apply deepSearch_more.
  - by apply parseGrid_more.
  - intros o. by apply deepSearch_more.
Qed.

Lemma solve_fuel_irrelevant_witness :
  60 ≤ 1459 ∧
  solve elements map_to_list (Assign elements 60) 60 easy_grid ≠ OutOfFuel ∧
  solve elements map_to_list (Assign elements 1459) 1459 easy_grid =
    Dict easy_solution ∧
  (parseGrid elements map_to_list (Assign elements 60) 60 easy_grid ≠ OutOfFuel →
     parseGrid elements map_to_list (Assign elements 1459) 1459 easy_grid =
     parseGrid elements map_to_list (Assign elements 60) 60 easy_grid) ∧
  (∀ o, deepSearch (Assign elements 60) 60 o ≠ OutOfFuel →
     deepSearch (Assign elements 1459) 1459 o = deepSearch (Assign elements 60) 60 o).
Proof.
  assert (Hle : 60 ≤ 1459) by lia.
  assert (Hends : solve elements map_to_list (Assign elements 60) 60 easy_grid ≠
                  OutOfFuel) by (rewrite easy_grid_solved; discriminate).
  destruct (solve_fuel_irrelevant elements map_to_list 60 60 1459 1459 easy_grid
              Hle Hle) as (Hsolve & Hparse & Hsearch).
  split; [exact Hle|]. split; [exact Hends|].
  split; [|split; [exact Hparse|exact Hsearch]].
  rewrite (Hsolve Hends). exact easy_grid_solved.
Defined.
